(** * Child-element traversal and naming utilities of react-spectrum-charts

    A shallow embedding of [src/utils/utils.ts]: the coercion and
    sanitization helpers, the word tokenizer behind [toCamelCase] and
    [toSnakeCase], [toggleStringArrayValue], the single-match traversal
    [getElement] and the naming traversal [getAllElements] with
    [getElementName], [getComponentName] and [initElementCounts]. *)

From Stdlib Require Import List String Ascii ZArith Bool Arith Lia.
From Stdlib Require Import DecimalString DecimalZ DecimalPos FinFun Sorted.
Import ListNotations.
Local Open Scope string_scope.
Local Open Scope list_scope.

(** ** Data model *)

(** The identity held by the [type] field of an element.  The traversal only
    ever compares it with [===]; the nine chart primitives and React's
    [Fragment] are the identities the source names, every other component or
    host tag (the ['Prism'] root of [useTooltips], a ['div'], ...) is an
    [OtherType]. *)
Inductive ElementType :=
| Area | Axis | AxisAnnotation | Bar | ChartPopover | ChartTooltip
| Legend | Line | Trendline
| Fragment
| OtherType (tag : string).

Definition ElementType_eq_dec (a b : ElementType) : {a = b} + {a <> b}.
Proof. decide equality. apply string_dec. Defined.

(** [a === b] on type identities. *)
Definition sameType (a b : ElementType) : bool :=
  if ElementType_eq_dec a b then true else false.

(** The values a child position can hold.  [NObject] stands for any object or
    function without a [type] field (a tooltip callback, for instance);
    [NArray] is a JS array (a [children] array or an iterable fragment);
    [NElem] is a React element with its [type], the [name] entry of its props
    ([None] when the key is absent) and the [children] entry of its props
    ([None] when the key is absent, [Some NUndefined] when present but
    undefined).  [null] and numbers are outside the declared parameter types
    ([ChildElement], [Children]) and are not modelled; every React element
    has [props]. *)
#[local] Set Warnings "-register-all".
Inductive Node :=
| NUndefined
| NBool (b : bool)
| NString (s : string)
| NObject
| NArray (items : list Node)
| NElem (type : ElementType) (name : option string) (children : option Node).

Record MappedElement := { name : string; element : Node }.

Record ElementCounts := {
  area : Z;
  axis : Z;
  axisAnnotation : Z;
  bar : Z;
  legend : Z;
  line : Z
}.

(** ** Coercion and sanitization *)

Definition toArray (children : Node) : list Node :=
  match children with
  | NUndefined => []
  | NArray items => items
  | _ => [children]
  end.

(** [Array.prototype.flat()] with its default depth of one. *)
Definition flat (l : list Node) : list Node :=
  flat_map (fun n => match n with NArray items => items | _ => [n] end) l.

Definition isPrismComponent (child : Node) : bool :=
  match child with
  | NElem type _ _ => negb (sameType type Fragment)
  | _ => false
  end.

Definition isChartChildElement (child : Node) : bool := isPrismComponent child.
Definition isMarkChildElement (child : Node) : bool := isPrismComponent child.

Definition sanitizeChartChildren (children : Node) : list Node :=
  filter isChartChildElement (flat (toArray children)).

Definition sanitizeMarkChildren (children : Node) : list Node :=
  filter isMarkChildElement (flat (toArray children)).

Definition sanitizeAxisChildren (children : Node) : list Node :=
  filter isMarkChildElement (flat (toArray children)).

Definition sanitizeAxisAnnotationChildren (children : Node) : list Node :=
  filter isMarkChildElement (flat (toArray children)).

Definition sanitizeTrendlineChildren (children : Node) : list Node :=
  filter isMarkChildElement (flat (toArray children)).

(** ** The word tokenizer

    [toCamelCase] and [toSnakeCase] tokenize with
    [/[A-Z]{2,}(?=[A-Z][a-z]+\d*|\b)|[A-Z]?[a-z]+\d*|[A-Z]|\d+/g].
    The pattern is kept as syntax and run by a backtracking matcher written
    after the ECMAScript pattern semantics (continuation passing, greedy
    quantifiers, lookahead without backtracking into it).  Strings are
    sequences of code units below 256. *)

Inductive Regex :=
| Class (p : ascii -> bool)
| Seq (r1 r2 : Regex)
| Alt (r1 r2 : Regex)
| Repeat (min : nat) (max : option nat) (r : Regex)
| Lookahead (r : Regex)
| WordBoundary.

(** A position in the subject: the code unit just before it, and what is
    left to read. *)
Record MatchState := { before : option ascii; input : list ascii }.

Definition inRange (lo hi : nat) (c : ascii) : bool :=
  ((lo <=? nat_of_ascii c) && (nat_of_ascii c <=? hi))%nat.

Definition isUpper : ascii -> bool := inRange 65 90.
Definition isLower : ascii -> bool := inRange 97 122.
Definition isDigit : ascii -> bool := inRange 48 57.

(** [\w] *)
Definition isWordChar (c : option ascii) : bool :=
  match c with
  | Some c => isUpper c || isLower c || isDigit c || (nat_of_ascii c =? 95)%nat
  | None => false
  end.

Definition Continuation : Type := MatchState -> option MatchState.

(** The greedy quantifier [{min,max}] over the matcher [m] of its body
    ([max = None] is no upper bound): an iteration that is not required and
    consumes nothing is rejected; the body is tried first and the
    continuation [k] only when the body, with all that follows, fails.
    Every iteration uses up a required repetition or a code unit of the
    input, so [min + length input + 1] units of [fuel] are never
    exhausted. *)
Fixpoint repeatMatcher (m : MatchState -> Continuation -> option MatchState)
    (k : Continuation) (fuel min : nat) (max : option nat) (x : MatchState)
    {struct fuel} : option MatchState :=
  match fuel with
  | O => None
  | S fuel' =>
      match max with
      | Some O => k x
      | _ =>
          let d := fun y : MatchState =>
            if ((min =? 0) &&
                (List.length (input y) =? List.length (input x)))%nat
            then None
            else repeatMatcher m k fuel' (Nat.pred min)
                   (option_map Nat.pred max) y in
          if (min =? 0)%nat
          then match m x d with
               | Some z => Some z
               | None => k x
               end
          else m x d
      end
  end.

Fixpoint matcher (r : Regex) (x : MatchState) (k : Continuation) {struct r}
    : option MatchState :=
  match r with
  | Class p =>
      match input x with
      | c :: cs => if p c then k {| before := Some c; input := cs |} else None
      | [] => None
      end
  | Seq r1 r2 => matcher r1 x (fun y => matcher r2 y k)
  | Alt r1 r2 =>
      match matcher r1 x k with
      | Some z => Some z
      | None => matcher r2 x k
      end
  | Repeat min max r1 =>
      repeatMatcher (matcher r1) k (min + List.length (input x) + 1) min max x
  | Lookahead r1 =>
      match matcher r1 x Some with
      | Some _ => k x
      | None => None
      end
  | WordBoundary =>
      if xorb (isWordChar (before x)) (isWordChar (hd_error (input x)))
      then k x else None
  end.

(** The matches of [String.prototype.match] with a global pattern: scan from
    the left, take the match at the first position that has one, resume at
    its end (one code unit further after an empty match).  [skip] counts the
    code units of the last match still to step over. *)
Fixpoint matchGlobal (r : Regex) (prev : option ascii) (rest : list ascii)
    (skip : nat) {struct rest} : list string :=
  match skip with
  | S skip' =>
      match rest with
      | [] => []
      | c :: cs => matchGlobal r (Some c) cs skip'
      end
  | O =>
      match matcher r {| before := prev; input := rest |} Some with
      | Some y =>
          let n := List.length rest - List.length (input y) in
          string_of_list_ascii (firstn n rest) ::
          match rest with
          | [] => []
          | c :: cs => matchGlobal r (Some c) cs (Nat.pred n)
          end
      | None =>
          match rest with
          | [] => []
          | c :: cs => matchGlobal r (Some c) cs 0
          end
      end
  end.

(** [str.match(r)] for a global [r]: [None] is JS [null]. *)
Definition String_match (str : string) (r : Regex) : option (list string) :=
  match matchGlobal r None (list_ascii_of_string str) 0 with
  | [] => None
  | words => Some words
  end.

Definition plus (r : Regex) : Regex := Repeat 1 None r.
Definition star (r : Regex) : Regex := Repeat 0 None r.
Definition opt (r : Regex) : Regex := Repeat 0 (Some 1) r.

(** [/[A-Z]{2,}(?=[A-Z][a-z]+\d*|\b)|[A-Z]?[a-z]+\d*|[A-Z]|\d+/] *)
Definition wordsPattern : Regex :=
  Alt (Seq (Repeat 2 None (Class isUpper))
           (Lookahead (Alt (Seq (Class isUpper)
                                (Seq (plus (Class isLower)) (star (Class isDigit))))
                           WordBoundary)))
 (Alt (Seq (opt (Class isUpper))
           (Seq (plus (Class isLower)) (star (Class isDigit))))
 (Alt (Class isUpper)
      (plus (Class isDigit)))).

(** Case mapping, exact on the letters [A-Z] and [a-z]; the tokens of
    [wordsPattern] hold nothing but those letters and digits. *)
Definition lowerChar (c : ascii) : ascii :=
  if isUpper c then ascii_of_nat (nat_of_ascii c + 32) else c.
Definition upperChar (c : ascii) : ascii :=
  if isLower c then ascii_of_nat (nat_of_ascii c - 32) else c.

Fixpoint toLowerCase (s : string) : string :=
  match s with
  | EmptyString => EmptyString
  | String c s' => String (lowerChar c) (toLowerCase s')
  end.

Fixpoint toUpperCase (s : string) : string :=
  match s with
  | EmptyString => EmptyString
  | String c s' => String (upperChar c) (toUpperCase s')
  end.

(** [word.charAt(0)] and [word.slice(1)] *)
Definition charAt0 (s : string) : string :=
  match s with
  | EmptyString => EmptyString
  | String c _ => String c EmptyString
  end.
Definition slice1 (s : string) : string :=
  match s with
  | EmptyString => EmptyString
  | String _ s' => s'
  end.

(** [words.map((word, i) => ...)] *)
Fixpoint mapi {A B : Type} (f : A -> nat -> B) (i : nat) (l : list A) : list B :=
  match l with
  | [] => []
  | a :: l' => f a i :: mapi f (S i) l'
  end.

Definition join (sep : string) (words : list string) : string :=
  String.concat sep words.

Definition toCamelCase (str : string) : string :=
  match String_match str wordsPattern with
  | Some words =>
      join "" (mapi (fun word i =>
                       if (i =? 0)%nat then toLowerCase word
                       else (toUpperCase (charAt0 word) ++ toLowerCase (slice1 word))%string)
                    0 words)
  | None => str
  end.

Definition toSnakeCase (str : string) : string :=
  match String_match str wordsPattern with
  | Some words => join "_" (map toLowerCase words)
  | None => str
  end.

(** ** toggleStringArrayValue *)

(** [target.includes(value)] *)
Definition includes (target : list string) (value : string) : bool :=
  existsb (String.eqb value) target.

Definition toggleStringArrayValue (target : list string) (value : string)
    : list string :=
  if includes target value
  then filter (fun item => negb (String.eqb item value)) target
  else target ++ [value].

(** ** Name derivation *)

(** A number inside a template literal: the counters are integers. *)
Definition numberToString (n : Z) : string :=
  NilZero.string_of_int (Z.to_int n).

(** JS truthiness of a string. *)
Definition truthy (s : string) : bool :=
  match s with
  | EmptyString => false
  | _ => true
  end.

Definition getComponentName (element : Node) (defaultName : string) : string :=
  match element with
  | NElem _ (Some name) _ =>
      if truthy name then toCamelCase name else defaultName
  | _ => defaultName
  end.

Definition initElementCounts : ElementCounts :=
  {| area := -1; axis := -1; axisAnnotation := -1;
     bar := -1; legend := -1; line := -1 |}.

(** [getElementName] increments a counter of the map it is given; the
    embedding returns the map after the call next to the name. *)
Definition getElementName (element : Node) (elementCounts : ElementCounts)
    : string * ElementCounts :=
  match element with
  | NElem type _ _ =>
      match type with
      | Area =>
          let c := (area elementCounts + 1)%Z in
          (getComponentName element ("area" ++ numberToString c)%string,
           {| area := c; axis := axis elementCounts;
              axisAnnotation := axisAnnotation elementCounts;
              bar := bar elementCounts; legend := legend elementCounts;
              line := line elementCounts |})
      | Axis =>
          let c := (axis elementCounts + 1)%Z in
          (getComponentName element ("axis" ++ numberToString c)%string,
           {| area := area elementCounts; axis := c;
              axisAnnotation := axisAnnotation elementCounts;
              bar := bar elementCounts; legend := legend elementCounts;
              line := line elementCounts |})
      | AxisAnnotation =>
          let c := (axisAnnotation elementCounts + 1)%Z in
          (getComponentName element ("Annotation" ++ numberToString c)%string,
           {| area := area elementCounts; axis := axis elementCounts;
              axisAnnotation := c;
              bar := bar elementCounts; legend := legend elementCounts;
              line := line elementCounts |})
      | Bar =>
          let c := (bar elementCounts + 1)%Z in
          (getComponentName element ("bar" ++ numberToString c)%string,
           {| area := area elementCounts; axis := axis elementCounts;
              axisAnnotation := axisAnnotation elementCounts;
              bar := c; legend := legend elementCounts;
              line := line elementCounts |})
      | Legend =>
          let c := (legend elementCounts + 1)%Z in
          (getComponentName element ("legend" ++ numberToString c)%string,
           {| area := area elementCounts; axis := axis elementCounts;
              axisAnnotation := axisAnnotation elementCounts;
              bar := bar elementCounts; legend := c;
              line := line elementCounts |})
      | Line =>
          let c := (line elementCounts + 1)%Z in
          (getComponentName element ("line" ++ numberToString c)%string,
           {| area := area elementCounts; axis := axis elementCounts;
              axisAnnotation := axisAnnotation elementCounts;
              bar := bar elementCounts; legend := legend elementCounts;
              line := c |})
      | Trendline => (getComponentName element "Trendline", elementCounts)
      | _ => ("", elementCounts)
      end
  | _ => ("", elementCounts)
  end.

(** ** Traversals *)

(** The [for (const child of ...)] loop of [getElement]: the first child on
    which [search] finds something. *)
Fixpoint forOfFirst (search : Node -> option Node) (children : list Node)
    : option Node :=
  match children with
  | [] => None
  | child :: rest =>
      match search child with
      | Some desiredElement => Some desiredElement
      | None => forOfFirst search rest
      end
  end.

Fixpoint getElement (element : Node) (type : ElementType) {struct element}
    : option Node :=
  match element with
  | NElem ty _ children =>
      if sameType ty Fragment then None
      else if sameType ty type then Some element
      else match children with
           | None => None
           | Some c =>
               (* toArray(element.props.children), case by case *)
               match c with
               | NUndefined => forOfFirst (fun child => getElement child type) []
               | NArray items => forOfFirst (fun child => getElement child type) items
               | _ => forOfFirst (fun child => getElement child type) [c]
               end
           end
  | _ => None
  end.

(** [[name, childName].filter(Boolean).join('')] *)
Definition composeName (name childName : string) : string :=
  join "" (filter truthy [name; childName]).

(** The [for (const child of ...)] loop of [getAllElements]: [elementCounts]
    is the map shared by the siblings, [desiredElements] the array pushed
    to, [visit child name] the recursive call. *)
Fixpoint forOfCollect (visit : Node -> string -> list MappedElement)
    (name : string) (children : list Node) (elementCounts : ElementCounts)
    (desiredElements : list MappedElement) : list MappedElement :=
  match children with
  | [] => desiredElements
  | child :: rest =>
      let (childName, elementCounts') := getElementName child elementCounts in
      forOfCollect visit name rest elementCounts'
        (desiredElements ++ visit child (composeName name childName))
  end.

Fixpoint getAllElements (target : Node) (source : ElementType)
    (elements : list MappedElement) (name : string) {struct target}
    : list MappedElement :=
  match target with
  | NElem ty _ children =>
      if sameType ty Fragment then elements
      else if sameType ty source
      then elements ++ [{| name := name; element := target |}]
      else match children with
           | None => elements
           | Some c =>
               let visit := fun child childName =>
                 getAllElements child source elements childName in
               (* toArray(target.props.children), case by case *)
               match c with
               | NUndefined =>
                   elements ++ forOfCollect visit name [] initElementCounts []
               | NArray items =>
                   elements ++ forOfCollect visit name items initElementCounts []
               | _ =>
                   elements ++ forOfCollect visit name [c] initElementCounts []
               end
           end
  | _ => elements
  end.

(** ** Positions in a tree

    What the claims say about "a node of the tree" and "its ancestors" is
    stated over positions: a position is the list of child indices that
    leads from the root to a node through [props.children], coerced by
    [toArray] the way both traversals coerce it. *)

Definition childrenOf (n : Node) : list Node :=
  match n with
  | NElem _ _ (Some c) => toArray c
  | _ => []
  end.

Definition typeOf (n : Node) : option ElementType :=
  match n with
  | NElem ty _ _ => Some ty
  | _ => None
  end.

Fixpoint nodeAt (T : Node) (p : list nat) : option Node :=
  match p with
  | [] => Some T
  | i :: p' =>
      match nth_error (childrenOf T) i with
      | Some child => nodeAt child p'
      | None => None
      end
  end.

(** The node at position [p] exists and has type [ty]. *)
Definition hasType (ty : ElementType) (T : Node) (p : list nat) : Prop :=
  exists n, nodeAt T p = Some n /\ typeOf n = Some ty.

(** The node at [p] has type [X] and none of its proper ancestors has. *)
Definition firstMatch (X : ElementType) (T : Node) (p : list nat) : Prop :=
  hasType X T p /\
  forall q r, p = q ++ r -> r <> [] -> ~ hasType X T q.

(** Neither the node at [p] nor any of its ancestors is a [Fragment]. *)
Definition unwrapped (T : Node) (p : list nat) : Prop :=
  forall q r, p = q ++ r -> ~ hasType Fragment T q.

(** The names [getElementName] gives to the siblings [children], in order,
    the counters running from [elementCounts]. *)
Fixpoint segmentNamesFrom (elementCounts : ElementCounts) (children : list Node)
    : list string :=
  match children with
  | [] => []
  | child :: rest =>
      let (childName, elementCounts') := getElementName child elementCounts in
      childName :: segmentNamesFrom elementCounts' rest
  end.

Definition segmentNames (children : list Node) : list string :=
  segmentNamesFrom initElementCounts children.

(** The segment names met on the way from the root to position [p]: one for
    each node below the root, the node at [p] included. *)
Fixpoint segmentsAlong (T : Node) (p : list nat) : list string :=
  match p with
  | [] => []
  | i :: p' =>
      match nth_error (childrenOf T) i with
      | Some child =>
          nth i (segmentNames (childrenOf T)) "" :: segmentsAlong child p'
      | None => []
      end
  end.

(** The positions of the matches, in the order of the traversal. *)
Fixpoint childPaths (paths : Node -> list (list nat)) (i : nat)
    (children : list Node) : list (list nat) :=
  match children with
  | [] => []
  | child :: rest => map (cons i) (paths child) ++ childPaths paths (S i) rest
  end.

Fixpoint matchPaths (source : ElementType) (target : Node) {struct target}
    : list (list nat) :=
  match target with
  | NElem ty _ children =>
      if sameType ty Fragment then []
      else if sameType ty source then [[]]
      else match children with
           | None => []
           | Some c =>
               match c with
               | NUndefined => childPaths (matchPaths source) 0 []
               | NArray items => childPaths (matchPaths source) 0 items
               | _ => childPaths (matchPaths source) 0 [c]
               end
           end
  | _ => []
  end.

(** The six kinds [getElementName] counts, and the label it writes before
    the count. *)
Definition counted (ty : ElementType) : bool :=
  match ty with
  | Area | Axis | AxisAnnotation | Bar | Legend | Line => true
  | _ => false
  end.

Definition kindLabel (ty : ElementType) : string :=
  match ty with
  | Area => "area"
  | Axis => "axis"
  | AxisAnnotation => "Annotation"
  | Bar => "bar"
  | Legend => "legend"
  | Line => "line"
  | _ => ""
  end.

(** The counter [getElementName] keeps for a counted kind. *)
Definition counterOf (ty : ElementType) (elementCounts : ElementCounts) : Z :=
  match ty with
  | Area => area elementCounts
  | Axis => axis elementCounts
  | AxisAnnotation => axisAnnotation elementCounts
  | Bar => bar elementCounts
  | Legend => legend elementCounts
  | Line => line elementCounts
  | _ => 0
  end.

(** How many of [children] are elements of type [ty]. *)
Definition countKind (ty : ElementType) (children : list Node) : nat :=
  List.length (filter (fun n => match typeOf n with
                                | Some ty' => sameType ty' ty
                                | None => false
                                end) children).

(** An element without a usable [name] prop: absent, or the empty string. *)
Definition untitled (n : Node) : bool :=
  match n with
  | NElem _ (Some nm) _ => negb (truthy nm)
  | NElem _ None _ => true
  | _ => false
  end.

(** [preorderLe p q]: a depth-first pre-order walk reaches position [p] no
    later than position [q]. *)
Fixpoint preorderLe (p q : list nat) : bool :=
  match p, q with
  | [], _ => true
  | _ :: _, [] => false
  | i :: p', j :: q' => ((i <? j) || ((i =? j) && preorderLe p' q'))%nat
  end.

Fixpoint size (n : Node) : nat :=
  match n with
  | NArray items => S (list_sum (map size items))
  | NElem _ _ (Some c) => S (size c)
  | _ => 1
  end.

(** A match that the traversal reaches: the first of its type on its
    branch, with no [Fragment] above it. *)
Definition reachable (X : ElementType) (T : Node) (p : list nat) : Prop :=
  firstMatch X T p /\ unwrapped T p.

(** Record [r] is the node at position [p] of [T], under the name made of
    [prefix] and the segment names along [p]. *)
Definition located (T : Node) (prefix : string) (r : MappedElement)
    (p : list nat) : Prop :=
  nodeAt T p = Some (element r) /\
  name r = (prefix ++ join "" (segmentsAlong T p))%string.

(** The segment names of the proper ancestors of position [p] alone. *)
Definition ancestorSegments (T : Node) (p : list nat) : list string :=
  removelast (segmentsAlong T p).

(** ** Example trees *)

Definition tooltip : Node := NElem ChartTooltip None (Some NObject).

(** The root [useTooltips] builds, over a single tooltip. *)
Definition tooltipTree : Node :=
  NElem (OtherType "Prism") None (Some (NArray [tooltip])).

(** A tooltip inside a [Fragment]. *)
Definition fragmentTree : Node :=
  NElem (OtherType "Prism") None
    (Some (NArray [NElem Fragment None (Some (NArray [tooltip]))])).

Definition lineTree : Node :=
  NElem (OtherType "Prism") None (Some (NArray [NElem Line None None])).

Definition innerAxis : Node := NElem Axis (Some "inner") None.
Definition outerAxis : Node := NElem Axis (Some "outer") (Some innerAxis).

Definition nestedAxisTree : Node :=
  NElem (OtherType "Prism") None (Some (NArray [NString "text"; outerAxis])).

Definition seedRecord : MappedElement :=
  {| name := "seed"; element := NElem ChartTooltip None None |}.

(** ** Characters and tokens *)

(** [[A-Za-z0-9]] *)
Definition isAlnum (c : ascii) : bool := isUpper c || isLower c || isDigit c.

(** [[a-z0-9_]] *)
Definition isSnakeChar (c : ascii) : bool :=
  isLower c || isDigit c || (nat_of_ascii c =? 95)%nat.

(** [[a-z0-9]] *)
Definition isLowerOrDigit (c : ascii) : bool := isLower c || isDigit c.

Definition notAlnum (c : ascii) : bool := negb (isAlnum c).
Definition notUpper (c : ascii) : bool := negb (isUpper c).

(** Every code unit of [s] satisfies [P]. *)
Fixpoint allChars (P : ascii -> bool) (s : string) : bool :=
  match s with
  | EmptyString => true
  | String c s' => P c && allChars P s'
  end.

(** Outside lookaheads, every character class of [r] lies within [P]: what
    a match of [r] consumes satisfies [P]. *)
Fixpoint consumesOnly (P : ascii -> bool) (r : Regex) : Prop :=
  match r with
  | Class p => forall c, p c = true -> P c = true
  | Seq r1 r2 | Alt r1 r2 => consumesOnly P r1 /\ consumesOnly P r2
  | Repeat _ _ r1 => consumesOnly P r1
  | Lookahead _ | WordBoundary => True
  end.

(** A sufficient test for [r] to consume at least one code unit whenever it
    matches. *)
Fixpoint alwaysConsumes (r : Regex) : bool :=
  match r with
  | Class _ => true
  | Seq r1 r2 => alwaysConsumes r1 || alwaysConsumes r2
  | Alt r1 r2 => alwaysConsumes r1 && alwaysConsumes r2
  | Repeat min max r1 =>
      (1 <=? min)%nat && alwaysConsumes r1 &&
      match max with Some O => false | _ => true end
  | Lookahead _ | WordBoundary => false
  end.

(** ** The tooltip hook

    [useTooltips] of [hooks/useTooltips.tsx].  [useMemo] caches a value
    between renders; the value is that of the function it is given. *)

Module TooltipDetail.
Record t := { name : string; callback : Node }.
End TooltipDetail.

(** JS truthiness of a value. *)
Definition truthyNode (n : Node) : bool :=
  match n with
  | NUndefined => false
  | NBool b => b
  | NString s => truthy s
  | NObject | NArray _ | NElem _ _ _ => true
  end.

(** [element.props.children], [undefined] when the key is absent. *)
Definition propsChildren (n : Node) : Node :=
  match n with
  | NElem _ _ (Some c) => c
  | _ => NUndefined
  end.

(** The root [useTooltips] hands to [getAllElements]:
    [{ type: { name: 'Prism' }, props: { children } }]. *)
Definition prismRoot (children : list Node) : Node :=
  NElem (OtherType "Prism") None (Some (NArray children)).

Definition useTooltips (children : list Node) : list TooltipDetail.t :=
  let tooltipElements := getAllElements (prismRoot children) ChartTooltip [] "" in
  map (fun tooltip =>
         {| TooltipDetail.name := name tooltip;
            TooltipDetail.callback := propsChildren (element tooltip) |})
      (filter (fun tooltip => truthyNode (propsChildren (element tooltip)))
              tooltipElements).

(** ** Selection signals

    [setSelectedSignals] talks to a Vega [View] through [view.signal(name,
    value)] alone; the view is modelled by the calls it receives, in order. *)

Inductive Value :=
| VUndefined
| VNull
| VNumber (n : Z)
| VString (s : string).

(** Modelled from the spec: the [Datum] type is not among the sources; a
    datum is taken with the two fields the function reads, [prismMarkId] and
    [prismSeriesId], [VUndefined] when the key is absent. *)
Record Datum := { prismMarkId : Value; prismSeriesId : Value }.

(** [a ?? b] *)
Definition nullish (a b : Value) : Value :=
  match a with
  | VUndefined | VNull => b
  | _ => a
  end.

(** [selectedData?.field]: [selectedData] is a datum or [null]. *)
Definition optionalField (selectedData : option Datum) (field : Datum -> Value)
    : Value :=
  match selectedData with
  | Some d => field d
  | None => VUndefined
  end.

(** Truthiness of a signal name that is a string or [null]. *)
Definition truthyName (signalName : option string) : bool :=
  match signalName with
  | Some s => truthy s
  | None => false
  end.

(** The calls [view.signal(name, value)] made, in order. *)
Definition setSelectedSignals (selectedData : option Datum)
    (selectedIdSignalName selectedSeriesSignalName : option string)
    : list (string * Value) :=
  (match selectedIdSignalName with
   | Some signalName =>
       if truthy signalName
       then [(signalName, nullish (optionalField selectedData prismMarkId) VNull)]
       else []
   | None => []
   end) ++
  (match selectedSeriesSignalName with
   | Some signalName =>
       if truthy signalName
       then [(signalName, nullish (optionalField selectedData prismSeriesId) VNull)]
       else []
   | None => []
   end).

(** A value that is not an array. *)
Definition notArray (n : Node) : bool :=
  match n with
  | NArray _ => false
  | _ => true
  end.

(** ** Every node of a tree

    A children array may hold arrays in its turn ([ChildElement] admits an
    iterable), and the tree handed to a traversal may itself be an array.
    The items of such an array are nodes of the tree too, although
    [toArray(props.children)] does not lead to them: [nodeIn] follows both
    the coerced children of an element and the items of an array. *)

Definition itemsOf (n : Node) : list Node :=
  match n with
  | NArray items => items
  | _ => childrenOf n
  end.

Fixpoint nodeIn (T : Node) (p : list nat) : option Node :=
  match p with
  | [] => Some T
  | i :: p' =>
      match nth_error (itemsOf T) i with
      | Some child => nodeIn child p'
      | None => None
      end
  end.

(** The node at position [p], arrays entered, exists and has type [ty]. *)
Definition hasTypeIn (ty : ElementType) (T : Node) (p : list nat) : Prop :=
  exists n, nodeIn T p = Some n /\ typeOf n = Some ty.

(** The node at [p] has type [X] and none of its proper ancestors has. *)
Definition firstMatchIn (X : ElementType) (T : Node) (p : list nat) : Prop :=
  hasTypeIn X T p /\
  forall q r, p = q ++ r -> r <> [] -> ~ hasTypeIn X T q.

(** Neither the node at [p] nor any of its ancestors is a [Fragment]. *)
Definition outsideFragments (T : Node) (p : list nat) : Prop :=
  forall q r, p = q ++ r -> ~ hasTypeIn Fragment T q.

(** No proper ancestor of the node at [p] is an array: the node is not an
    item of an array nested in a children array, nor of an array handed over
    as the tree. *)
Definition outsideNestedArrays (T : Node) (p : list nat) : Prop :=
  forall q r items, p = q ++ r -> r <> [] -> nodeIn T q <> Some (NArray items).

(** A tooltip in an array nested in the children array, next to a Line. *)
Definition nestedChildrenTree : Node :=
  NElem (OtherType "Prism") None
    (Some (NArray [NArray [tooltip]; NElem Line None None])).

(** The names of the signals written for a signal name that is a string or
    [null]. *)
Definition writtenNames (signalName : option string) : list string :=
  match signalName with
  | Some s => if truthy s then [s] else []
  | None => []
  end.

(** ** Basic facts *)

Lemma sameType_true a b : sameType a b = true <-> a = b.
Proof.
  unfold sameType. destruct (ElementType_eq_dec a b); split; congruence.
Qed.

Lemma sameType_false a b : sameType a b = false <-> a <> b.
Proof.
  unfold sameType. destruct (ElementType_eq_dec a b); split; congruence.
Qed.

Lemma sameType_refl a : sameType a a = true.
Proof. now apply sameType_true. Qed.

Lemma size_in_items (items : list Node) (n : Node) :
  In n items -> size n <= list_sum (map size items).
Proof.
  induction items as [|a items IH]; simpl; [tauto|].
  intros [->|H]; [lia|]. specialize (IH H). lia.
Qed.

Lemma size_child (n child : Node) :
  In child (childrenOf n) -> size child < size n.
Proof.
  destruct n as [| | | | |ty nm [c|]]; simpl; try tauto.
  destruct c; simpl; try tauto;
    try (intros [<-|[]]; simpl; lia).
  intros H. apply size_in_items in H. lia.
Qed.

(** Induction over a tree along [props.children]. *)
Lemma Node_children_ind (P : Node -> Prop) :
  (forall n, Forall P (childrenOf n) -> P n) -> forall n, P n.
Proof.
  intros step n.
  assert (H : forall k m, size m < k -> P m).
  { induction k as [|k IH]; intros m Hm; [lia|].
    apply step. apply Forall_forall. intros child Hin.
    apply IH. apply size_child in Hin. lia. }
  apply (H (S (size n))). lia.
Qed.

(** The traversals in the shape of the source, with [toArray] applied to
    [props.children]. *)
Lemma getElement_unfold (ty : ElementType) (nm : option string)
    (children : option Node) (type : ElementType) :
  getElement (NElem ty nm children) type =
  if sameType ty Fragment then None
  else if sameType ty type then Some (NElem ty nm children)
  else match children with
       | None => None
       | Some c => forOfFirst (fun child => getElement child type) (toArray c)
       end.
Proof.
  simpl. destruct (sameType ty Fragment), (sameType ty type); try reflexivity.
  destruct children as [c|]; [|reflexivity]. destruct c; reflexivity.
Qed.

Lemma getAllElements_unfold (ty : ElementType) (nm : option string)
    (children : option Node) (source : ElementType)
    (elements : list MappedElement) (name : string) :
  getAllElements (NElem ty nm children) source elements name =
  if sameType ty Fragment then elements
  else if sameType ty source
  then elements ++ [{| name := name; element := NElem ty nm children |}]
  else match children with
       | None => elements
       | Some c =>
           elements ++
           forOfCollect (fun child childName =>
                           getAllElements child source elements childName)
             name (toArray c) initElementCounts []
       end.
Proof.
  simpl. destruct (sameType ty Fragment), (sameType ty source); try reflexivity.
  destruct children as [c|]; [|reflexivity]. destruct c; reflexivity.
Qed.

Lemma matchPaths_unfold (ty : ElementType) (nm : option string)
    (children : option Node) (source : ElementType) :
  matchPaths source (NElem ty nm children) =
  if sameType ty Fragment then []
  else if sameType ty source then [[]]
  else childPaths (matchPaths source) 0 (childrenOf (NElem ty nm children)).
Proof.
  simpl. destruct (sameType ty Fragment), (sameType ty source); try reflexivity.
  destruct children as [c|]; [|reflexivity]. destruct c; reflexivity.
Qed.

Lemma matchPaths_leaf (source : ElementType) (n : Node) :
  typeOf n = None -> matchPaths source n = [].
Proof. destruct n; simpl; congruence. Qed.

(** ** The matcher: enough fuel *)

Section Quantifier.

Variable m : MatchState -> Continuation -> option MatchState.

(** The body calls its continuation at or after its starting point only. *)
Hypothesis m_forward : forall x k k',
  (forall y, List.length (input y) <= List.length (input x) -> k y = k' y) ->
  m x k = m x k'.

Lemma repeatMatcher_forward (fuel : nat) :
  forall min max x k k',
  (forall y, List.length (input y) <= List.length (input x) -> k y = k' y) ->
  repeatMatcher m k fuel min max x = repeatMatcher m k' fuel min max x.
Proof.
  induction fuel as [|fuel IH]; intros min max x k k' Hk; [reflexivity|].
  assert (Hd : forall y,
             List.length (input y) <= List.length (input x) ->
             (if ((min =? 0) &&
                  (List.length (input y) =? List.length (input x)))%nat
              then None
              else repeatMatcher m k fuel (Nat.pred min)
                     (option_map Nat.pred max) y) =
             (if ((min =? 0) &&
                  (List.length (input y) =? List.length (input x)))%nat
              then None
              else repeatMatcher m k' fuel (Nat.pred min)
                     (option_map Nat.pred max) y)).
  { intros y Hy. destruct (_ && _)%bool; [reflexivity|].
    apply IH. intros z Hz. apply Hk. lia. }
  simpl. rewrite (Hk x) by lia. rewrite (m_forward x _ _ Hd). reflexivity.
Qed.

(** Past [min + length input + 1], more fuel changes nothing. *)
Lemma repeatMatcher_fuel (k : Continuation) (fuel1 : nat) :
  forall fuel2 min max x,
  min + List.length (input x) + 1 <= fuel1 ->
  min + List.length (input x) + 1 <= fuel2 ->
  repeatMatcher m k fuel1 min max x = repeatMatcher m k fuel2 min max x.
Proof.
  induction fuel1 as [|fuel1 IH]; intros fuel2 min max x H1 H2; [lia|].
  destruct fuel2 as [|fuel2]; [lia|].
  assert (Hd : forall y,
             List.length (input y) <= List.length (input x) ->
             (if ((min =? 0) &&
                  (List.length (input y) =? List.length (input x)))%nat
              then None
              else repeatMatcher m k fuel1 (Nat.pred min)
                     (option_map Nat.pred max) y) =
             (if ((min =? 0) &&
                  (List.length (input y) =? List.length (input x)))%nat
              then None
              else repeatMatcher m k fuel2 (Nat.pred min)
                     (option_map Nat.pred max) y)).
  { intros y Hy.
    destruct (Nat.eqb_spec min 0) as [Hmin|Hmin];
      destruct (Nat.eqb_spec (List.length (input y))
                             (List.length (input x))) as [Hlen|Hlen];
      simpl; try reflexivity; apply IH; lia. }
  simpl. rewrite (m_forward x _ _ Hd). reflexivity.
Qed.

End Quantifier.

Lemma matcher_forward (r : Regex) :
  forall x k k',
  (forall y, List.length (input y) <= List.length (input x) -> k y = k' y) ->
  matcher r x k = matcher r x k'.
Proof.
  induction r as [p|r1 IH1 r2 IH2|r1 IH1 r2 IH2|min max r1 IH1|r1 IH1|];
    intros x k k' Hk; simpl.
  - destruct (input x) as [|c cs] eqn:E; [reflexivity|].
    destruct (p c); [|reflexivity]. apply Hk. simpl. lia.
  - apply IH1. intros y Hy. apply IH2. intros z Hz. apply Hk. lia.
  - rewrite (IH1 x k k' Hk), (IH2 x k k' Hk). reflexivity.
  - now apply repeatMatcher_forward.
  - rewrite (Hk x) by lia. reflexivity.
  - rewrite (Hk x) by lia. reflexivity.
Qed.

(** The quantifier never runs out of fuel: any larger amount gives the same
    result. *)
Lemma matcher_Repeat_fuel (min : nat) (max : option nat) (r : Regex)
    (x : MatchState) (k : Continuation) (fuel : nat) :
  min + List.length (input x) + 1 <= fuel ->
  matcher (Repeat min max r) x k = repeatMatcher (matcher r) k fuel min max x.
Proof.
  intros H. simpl. apply repeatMatcher_fuel; [apply matcher_forward|lia|lia].
Qed.

(** ** toggleStringArrayValue *)

Lemma includes_In (target : list string) (value : string) :
  includes target value = true <-> In value target.
Proof.
  unfold includes. rewrite existsb_exists. split.
  - intros [x [Hin Heq]]. apply String.eqb_eq in Heq. now subst.
  - intros Hin. exists value. split; [assumption|apply String.eqb_refl].
Qed.

Lemma filter_out_absent (target : list string) (value : string) :
  ~ In value target ->
  filter (fun item => negb (String.eqb item value)) target = target.
Proof.
  induction target as [|a target IH]; simpl; intros Hn; [reflexivity|].
  destruct (String.eqb_spec a value) as [->|Hne]; simpl.
  - exfalso. apply Hn. now left.
  - f_equal. apply IH. tauto.
Qed.

(** C10.  [toggleStringArrayValue] only reads [target] ([includes], [filter]
    and the spread each build a new array), so it is a function of the
    array's contents.  It flips the membership of [value]: the value is in
    the result exactly when it was not in the input.  When the value was not
    in the input, toggling it twice gives the input back. *)
Theorem toggleStringArrayValue_flips_membership (t : list string) (v : string) :
  (In v (toggleStringArrayValue t v) <-> ~ In v t) /\
  (~ In v t -> toggleStringArrayValue (toggleStringArrayValue t v) v = t).
Proof.
  split.
  - unfold toggleStringArrayValue. destruct (includes t v) eqn:Hinc.
    + apply includes_In in Hinc. split; [|tauto].
      intros H. apply filter_In in H. destruct H as [_ H].
      rewrite String.eqb_refl in H. discriminate.
    + split.
      * intros _ H. apply includes_In in H. congruence.
      * intros _. apply in_or_app. right. now left.
  - intros Hn.
    assert (H1 : toggleStringArrayValue t v = t ++ [v]).
    { unfold toggleStringArrayValue. destruct (includes t v) eqn:Hinc.
      - apply includes_In in Hinc. contradiction.
      - reflexivity. }
    rewrite H1. unfold toggleStringArrayValue.
    assert (Hin : includes (t ++ [v]) v = true).
    { apply includes_In. apply in_or_app. right. now left. }
    rewrite Hin, filter_app. simpl. rewrite String.eqb_refl. simpl.
    rewrite app_nil_r. now apply filter_out_absent.
Qed.

Lemma toggleStringArrayValue_flips_membership_witness :
  ~ In "b" ["a"; "c"] /\
  toggleStringArrayValue (toggleStringArrayValue ["a"; "c"] "b") "b" = ["a"; "c"].
Proof.
  assert (H : ~ In "b" ["a"; "c"]).
  { simpl. intros [H|[H|[]]]; discriminate. }
  split; [exact H|].
  exact (proj2 (toggleStringArrayValue_flips_membership ["a"; "c"] "b") H).
Defined.

(** ** Sanitization *)

Lemma isPrismComponent_true (n : Node) :
  isPrismComponent n = true <->
  exists ty nm ch, n = NElem ty nm ch /\ ty <> Fragment.
Proof.
  split.
  - destruct n as [| | | | |ty nm ch]; simpl; try discriminate.
    intros H. exists ty, nm, ch. split; [reflexivity|].
    apply sameType_false. now destruct (sameType ty Fragment).
  - intros [ty [nm [ch [-> Hne]]]]. simpl.
    apply sameType_false in Hne. now rewrite Hne.
Qed.

Lemma sanitize_filter_facts (children : Node) :
  let flattened := flat (toArray children) in
  let out := sanitizeChartChildren children in
  (sanitizeMarkChildren children = out /\
   sanitizeAxisChildren children = out /\
   sanitizeAxisAnnotationChildren children = out /\
   sanitizeTrendlineChildren children = out) /\
  out = filter isPrismComponent flattened /\
  (forall n, isPrismComponent n = true <->
             exists ty nm ch, n = NElem ty nm ch /\ ty <> Fragment) /\
  ~ In NUndefined out /\
  (forall b, ~ In (NBool b) out) /\
  (forall s, ~ In (NString s) out) /\
  (forall nm ch, ~ In (NElem Fragment nm ch) out) /\
  (forall l1 n l2, flattened = l1 ++ n :: l2 -> isPrismComponent n = true ->
     out = filter isPrismComponent l1 ++ n :: filter isPrismComponent l2) /\
  (forall anm ach bnm bch wnm wch,
     sanitizeChartChildren
       (NArray [NElem Fragment wnm wch; NElem Area anm ach;
                NString "text"; NElem Bar bnm bch])
     = [NElem Area anm ach; NElem Bar bnm bch]).
Proof.
  cbv zeta.
  assert (Hno : forall n, isPrismComponent n = false ->
                          ~ In n (sanitizeChartChildren children)).
  { intros n Hn Hin. apply filter_In in Hin. destruct Hin as [_ Hin].
    unfold isChartChildElement in Hin. congruence. }
  repeat split; try reflexivity.
  - apply isPrismComponent_true.
  - apply isPrismComponent_true.
  - now apply Hno.
  - intros b. now apply Hno.
  - intros s. now apply Hno.
  - intros nm ch. now apply Hno.
  - intros l1 n l2 Hfl Hn. unfold sanitizeChartChildren, isChartChildElement.
    rewrite Hfl, filter_app. simpl. now rewrite Hn.
Qed.

(** C8.  The five sanitizers are one and the same function: the children
    coerced by [toArray], flattened one level, and filtered in place by
    [isPrismComponent].  What is kept is exactly what carries a [type] other
    than [Fragment], so no undefined, boolean or string and no wrapper is
    left; the kept nodes stay in their order, each as often as it occurs.
    Coercion: [undefined] gives the empty sequence and a single element the
    sequence of that element.  Flattening, item by item: an item that is not
    an array is kept or dropped on its own; an item that is an array is
    replaced by those of its own items that are kept, so an array two levels
    down is dropped with all it holds.  [[wrapperNode, AreaNode, "text",
    BarNode]] becomes [[AreaNode, BarNode]], [[[AreaNode], BarNode]] becomes
    [[AreaNode, BarNode]] and [[[[AreaNode]], BarNode]] becomes
    [[BarNode]]. *)
Theorem sanitizeChartChildren_filters_in_order (children : Node) :
  let flattened := flat (toArray children) in
  let out := sanitizeChartChildren children in
  (sanitizeMarkChildren children = out /\
   sanitizeAxisChildren children = out /\
   sanitizeAxisAnnotationChildren children = out /\
   sanitizeTrendlineChildren children = out) /\
  out = filter isPrismComponent flattened /\
  (forall n, isPrismComponent n = true <->
             exists ty nm ch, n = NElem ty nm ch /\ ty <> Fragment) /\
  ~ In NUndefined out /\
  (forall b, ~ In (NBool b) out) /\
  (forall s, ~ In (NString s) out) /\
  (forall nm ch, ~ In (NElem Fragment nm ch) out) /\
  (forall l1 n l2, flattened = l1 ++ n :: l2 -> isPrismComponent n = true ->
     out = filter isPrismComponent l1 ++ n :: filter isPrismComponent l2) /\
  (forall anm ach bnm bch wnm wch,
     sanitizeChartChildren
       (NArray [NElem Fragment wnm wch; NElem Area anm ach;
                NString "text"; NElem Bar bnm bch])
     = [NElem Area anm ach; NElem Bar bnm bch]) /\
  (sanitizeChartChildren NUndefined = [] /\
   sanitizeChartChildren (NArray []) = [] /\
   (forall ty nm ch, ty <> Fragment ->
      sanitizeChartChildren (NElem ty nm ch) = [NElem ty nm ch])) /\
  (forall ty nm ch rest, ty <> Fragment ->
     sanitizeChartChildren (NArray (NElem ty nm ch :: rest)) =
     NElem ty nm ch :: sanitizeChartChildren (NArray rest)) /\
  (forall n rest, notArray n = true -> isPrismComponent n = false ->
     sanitizeChartChildren (NArray (n :: rest)) =
     sanitizeChartChildren (NArray rest)) /\
  (forall inner rest,
     sanitizeChartChildren (NArray (NArray inner :: rest)) =
     filter isPrismComponent inner ++ sanitizeChartChildren (NArray rest)) /\
  (forall n, In n out <->
     isPrismComponent n = true /\
     (In n (toArray children) \/
      exists inner, In (NArray inner) (toArray children) /\ In n inner)) /\
  (forall anm ach bnm bch,
     sanitizeChartChildren
       (NArray [NArray [NElem Area anm ach]; NElem Bar bnm bch])
     = [NElem Area anm ach; NElem Bar bnm bch] /\
     sanitizeChartChildren
       (NArray [NArray [NArray [NElem Area anm ach]]; NElem Bar bnm bch])
     = [NElem Bar bnm bch]).
Proof.
  cbv zeta.
  destruct (sanitize_filter_facts children)
    as [H1 [H2 [H3 [H4 [H5 [H6 [H7 [H8 H9]]]]]]]].
  repeat (split; [assumption|]).
  assert (Hkeep : forall ty nm ch, ty <> Fragment ->
            isPrismComponent (NElem ty nm ch) = true).
  { intros ty nm ch Hne. apply isPrismComponent_true. now exists ty, nm, ch. }
  split; [|split; [|split; [|split; [|split]]]].
  - split; [reflexivity|]. split; [reflexivity|].
    intros ty nm ch Hne. unfold sanitizeChartChildren, isChartChildElement.
    cbn [toArray flat flat_map app filter]. now rewrite (Hkeep ty nm ch Hne).
  - intros ty nm ch rest Hne. unfold sanitizeChartChildren, isChartChildElement.
    cbn [toArray flat flat_map app filter]. now rewrite (Hkeep ty nm ch Hne).
  - intros n rest Hn Hp. unfold sanitizeChartChildren, isChartChildElement.
    cbn [toArray]. unfold flat. cbn [flat_map].
    destruct n; try discriminate; cbn [app filter]; now rewrite ?Hp.
  - intros inner rest. unfold sanitizeChartChildren, isChartChildElement.
    cbn [toArray]. unfold flat. cbn [flat_map]. now rewrite filter_app.
  - intros n. unfold sanitizeChartChildren, isChartChildElement, flat.
    rewrite filter_In, in_flat_map. split.
    + intros [[x [Hx Hn]] Hp]. split; [assumption|].
      destruct x; try (destruct Hn as [<-|[]]; now left).
      right. now exists items.
    + intros [Hp [Hin|[inner [Hin Hn]]]]; (split; [|assumption]).
      * exists n. split; [assumption|].
        destruct n; try discriminate; now left.
      * exists (NArray inner). now split.
  - intros anm ach bnm bch. split; reflexivity.
Qed.

(** ** Camel case and snake case *)

(** C7.  On ["MY_COOL_area2"] [toCamelCase] returns ["mYCOOLArea2"], not
    the camel case ["myCoolArea2"]: the underscore is a word character, so
    no [\b] follows [MY] or [COOL], the first alternative of the pattern
    fails on them and they are tokenized letter by letter.  The same words
    come out as ["myCoolArea2"] when hyphens or blanks separate them and
    when they are written in lower case.  [toSnakeCase("myCoolArea2")] is
    ["my_cool_area2"], and when the pattern finds no token, as in the empty
    string or a string of symbols, [toCamelCase] returns the string it was
    given. *)
Theorem toCamelCase_toSnakeCase_examples :
  String_match "MY_COOL_area2" wordsPattern
    = Some ["M"; "Y"; "C"; "O"; "O"; "L"; "area2"] /\
  toCamelCase "MY_COOL_area2" = "mYCOOLArea2" /\
  toCamelCase "MY-COOL-area2" = "myCoolArea2" /\
  toCamelCase "MY COOL area2" = "myCoolArea2" /\
  toCamelCase "my_cool_area2" = "myCoolArea2" /\
  toSnakeCase "myCoolArea2" = "my_cool_area2" /\
  (forall str, String_match str wordsPattern = None -> toCamelCase str = str) /\
  String_match "" wordsPattern = None /\
  String_match "-- _ !?" wordsPattern = None /\
  toCamelCase "" = "" /\
  toCamelCase "-- _ !?" = "-- _ !?".
Proof.
  repeat split; try (vm_compute; reflexivity).
  intros str H. unfold toCamelCase. now rewrite H.
Qed.

(** ** Name derivation *)

Lemma getComponentName_named (ty : ElementType) (nm : string)
    (ch : option Node) (defaultName : string) :
  truthy nm = true ->
  getComponentName (NElem ty (Some nm) ch) defaultName = toCamelCase nm.
Proof. intros H. simpl. now rewrite H. Qed.

Lemma getComponentName_untitled (n : Node) (defaultName : string) :
  untitled n = true -> getComponentName n defaultName = defaultName.
Proof.
  destruct n as [| | | | |ty [nm|] ch]; simpl; try discriminate; [|reflexivity].
  now destruct (truthy nm).
Qed.



Lemma getElementName_default (ty : ElementType) (nm : option string)
    (ch : option Node) (elementCounts : ElementCounts) :
  counted ty = true ->
  untitled (NElem ty nm ch) = true ->
  fst (getElementName (NElem ty nm ch) elementCounts) =
  (kindLabel ty ++ numberToString (counterOf ty elementCounts + 1))%string.
Proof.
  intros Hty Hun.
  destruct ty; try discriminate; cbn [getElementName fst];
    now rewrite getComponentName_untitled.
Qed.

(** What a call does to the counter of a counted kind. *)
Lemma getElementName_counter (ty : ElementType) (n : Node)
    (elementCounts : ElementCounts) :
  counted ty = true ->
  counterOf ty (snd (getElementName n elementCounts)) =
  (counterOf ty elementCounts + Z.of_nat (countKind ty [n]))%Z.
Proof.
  intros Hty. unfold countKind.
  destruct n as [| | | | |ty' nm ch]; simpl; try lia.
  destruct ty'; destruct ty; try discriminate; simpl; try lia;
    destruct (sameType _ _) eqn:E; simpl; try lia;
    apply sameType_true in E; discriminate.
Qed.

Lemma countKind_app (ty : ElementType) (l1 l2 : list Node) :
  countKind ty (l1 ++ l2) = countKind ty l1 + countKind ty l2.
Proof. unfold countKind. now rewrite filter_app, length_app. Qed.

Lemma segmentNamesFrom_default (children : list Node) :
  forall (elementCounts : ElementCounts) (i : nat) (ty : ElementType)
         (nm : option string) (ch : option Node),
  nth_error children i = Some (NElem ty nm ch) ->
  counted ty = true ->
  untitled (NElem ty nm ch) = true ->
  nth_error (segmentNamesFrom elementCounts children) i =
  Some (kindLabel ty ++
        numberToString (counterOf ty elementCounts + 1 +
                        Z.of_nat (countKind ty (firstn i children))))%string.
Proof.
  induction children as [|child rest IH]; intros counts i ty nm ch Hnth Hty Hun.
  - destruct i; discriminate.
  - simpl. destruct (getElementName child counts) as [childName counts'] eqn:E.
    destruct i as [|i]; simpl in *.
    + injection Hnth as ->.
      assert (H := getElementName_default ty nm ch counts Hty Hun).
      rewrite E in H. simpl in H. rewrite H.
      unfold countKind. simpl. now rewrite Z.add_0_r.
    + rewrite (IH counts' i ty nm ch Hnth Hty Hun).
      assert (H := getElementName_counter ty child counts Hty).
      rewrite E in H. simpl in H. rewrite H.
      change (child :: firstn i rest) with ([child] ++ firstn i rest).
      rewrite countKind_app. do 3 f_equal. lia.
Qed.

(** C1, as the spec has it, fails: the first untitled Area is [area0]. *)
Lemma segmentNames_three_areas_counterexample :
  segmentNames [NElem Area None None; NElem Area None None; NElem Area None None]
  <> ["area1"; "area2"; "area3"].
Proof. vm_compute. discriminate. Qed.

(** C1 (amended).  Among siblings named from a fresh counter map, an
    untitled element of a counted kind gets the kind's label followed by the
    number of siblings of that kind before it, counted from zero.  The labels
    are [area], [axis], [Annotation], [bar], [legend] and [line].  Three
    untitled Area children are named [area0], [area1], [area2], as segments
    and as the names [getAllElements] returns for them, and the first
    AxisAnnotation is [Annotation0]. *)
Theorem segmentNames_counts_from_zero (children : list Node) (i : nat)
    (ty : ElementType) (nm : option string) (ch : option Node) :
  nth_error children i = Some (NElem ty nm ch) ->
  counted ty = true ->
  untitled (NElem ty nm ch) = true ->
  nth_error (segmentNames children) i =
    Some (kindLabel ty ++
          numberToString (Z.of_nat (countKind ty (firstn i children))))%string /\
  segmentNames [NElem Area None None; NElem Area None None; NElem Area None None]
    = ["area0"; "area1"; "area2"] /\
  map name
    (getAllElements
       (NElem (OtherType "Prism") None
          (Some (NArray [NElem Area None None; NElem Area None None;
                         NElem Area None None])))
       Area [] "")
    = ["area0"; "area1"; "area2"] /\
  segmentNames [NElem AxisAnnotation None None; NElem AxisAnnotation None None]
    = ["Annotation0"; "Annotation1"].
Proof.
  intros Hnth Hty Hun. split; [|repeat split].
  unfold segmentNames.
  rewrite (segmentNamesFrom_default children initElementCounts i ty nm ch
             Hnth Hty Hun).
  do 3 f_equal.
  destruct ty; try discriminate; simpl; lia.
Qed.

Lemma segmentNames_counts_from_zero_witness :
  nth_error (segmentNames [NElem Line None None; NElem Bar None None;
                           NElem Line (Some "") None]) 2
    = Some "line1".
Proof.
  exact (proj1 (segmentNames_counts_from_zero
                  [NElem Line None None; NElem Bar None None;
                   NElem Line (Some "") None] 2 Line (Some "") None
                  eq_refl eq_refl eq_refl)).
Defined.

(** ** The naming traversal *)

Lemma append_empty_r (s : string) : (s ++ "")%string = s.
Proof. induction s as [|c s IH]; simpl; [reflexivity|now rewrite IH]. Qed.

Lemma append_assoc (a b c : string) :
  ((a ++ b) ++ c)%string = (a ++ (b ++ c))%string.
Proof. induction a as [|x a IH]; simpl; [reflexivity|now rewrite IH]. Qed.

Lemma join_empty_cons (a : string) (l : list string) :
  join "" (a :: l) = (a ++ join "" l)%string.
Proof.
  unfold join. destruct l as [|b l]; simpl; [now rewrite append_empty_r|reflexivity].
Qed.

(** Joining the non-empty ones of two names without a separator is plain
    concatenation. *)
Lemma composeName_append (name childName : string) :
  composeName name childName = (name ++ childName)%string.
Proof.
  unfold composeName, join.
  destruct name as [|a name], childName as [|b childName]; simpl;
    try reflexivity.
  now rewrite append_empty_r.
Qed.

Lemma forOfCollect_desired (visit : Node -> string -> list MappedElement)
    (name : string) (children : list Node) :
  forall elementCounts desiredElements,
  forOfCollect visit name children elementCounts desiredElements =
  desiredElements ++ forOfCollect visit name children elementCounts [].
Proof.
  induction children as [|child rest IH]; intros counts desired; simpl.
  - now rewrite app_nil_r.
  - destruct (getElementName child counts) as [childName counts'].
    rewrite IH. rewrite (IH counts' (visit child _)).
    now rewrite app_assoc.
Qed.

Lemma forOfCollect_cons (visit : Node -> string -> list MappedElement)
    (name : string) (child : Node) (rest : list Node)
    (elementCounts : ElementCounts) :
  forOfCollect visit name (child :: rest) elementCounts [] =
  visit child (name ++ fst (getElementName child elementCounts))%string ++
  forOfCollect visit name rest (snd (getElementName child elementCounts)) [].
Proof.
  simpl. destruct (getElementName child elementCounts) as [childName counts'].
  simpl. rewrite forOfCollect_desired. now rewrite composeName_append.
Qed.

Lemma segmentNamesFrom_cons (child : Node) (rest : list Node)
    (elementCounts : ElementCounts) :
  segmentNamesFrom elementCounts (child :: rest) =
  fst (getElementName child elementCounts) ::
  segmentNamesFrom (snd (getElementName child elementCounts)) rest.
Proof.
  simpl. now destruct (getElementName child elementCounts).
Qed.

Lemma located_child (T child : Node) (i : nat) (prefix seg : string)
    (r : MappedElement) (p : list nat) :
  nth_error (childrenOf T) i = Some child ->
  nth i (segmentNames (childrenOf T)) "" = seg ->
  located child (prefix ++ seg) r p ->
  located T prefix r (i :: p).
Proof.
  intros Hnth Hseg [Hat Hname]. unfold located. simpl. rewrite Hnth.
  split; [assumption|].
  rewrite Hname, Hseg, join_empty_cons. apply append_assoc.
Qed.

(** The loop over the children of [T], from any point of it on: [pre] are
    the children already visited, [spre] the names they were given. *)
Lemma forOfCollect_located (T : Node) (X : ElementType) (name : string)
    (children : list Node) :
  forall (pre : list Node) (spre : list string) (elementCounts : ElementCounts),
  childrenOf T = pre ++ children ->
  segmentNames (childrenOf T) = spre ++ segmentNamesFrom elementCounts children ->
  List.length spre = List.length pre ->
  Forall (fun child => forall nm,
            Forall2 (located child nm) (getAllElements child X [] nm)
                    (matchPaths X child)) children ->
  Forall2 (located T name)
    (forOfCollect (fun child childName => getAllElements child X [] childName)
       name children elementCounts [])
    (childPaths (matchPaths X) (List.length pre) children).
Proof.
  induction children as [|child rest IH];
    intros pre spre counts Hch Hseg Hlen Hall.
  - constructor.
  - rewrite forOfCollect_cons. cbn [childPaths].
    rewrite segmentNamesFrom_cons in Hseg.
    inversion Hall as [|? ? Hchild Hrest]; subst.
    apply Forall2_app.
    + specialize (Hchild (name ++ fst (getElementName child counts))%string).
      revert Hchild. generalize (matchPaths X child).
      generalize (getAllElements child X []
                    (name ++ fst (getElementName child counts))%string).
      intros out paths HF. induction HF as [|r p out paths Hrp HF IHF];
        simpl; constructor; [|assumption].
      apply (located_child T child (List.length pre) name
               (fst (getElementName child counts))); [| |assumption].
      * rewrite Hch. rewrite nth_error_app2 by lia.
        now rewrite Nat.sub_diag.
      * rewrite Hseg. rewrite app_nth2 by lia.
        rewrite Hlen, Nat.sub_diag. reflexivity.
    + replace (S (List.length pre)) with (List.length (pre ++ [child]))
        by (rewrite length_app; simpl; lia).
      apply (IH (pre ++ [child])
                (spre ++ [fst (getElementName child counts)])).
      * now rewrite <- app_assoc.
      * now rewrite <- app_assoc.
      * rewrite !length_app. simpl. lia.
      * assumption.
Qed.

(** With an empty accumulator, the records of [getAllElements] are the nodes
    at the positions [matchPaths], one for one and in that order, each under
    the name composed along its position. *)
Lemma getAllElements_located (X : ElementType) (T : Node) :
  forall name,
  Forall2 (located T name) (getAllElements T X [] name) (matchPaths X T).
Proof.
  induction T as [T IH] using Node_children_ind. intros name.
  destruct T as [| | | | |ty nm children]; try constructor.
  rewrite getAllElements_unfold, matchPaths_unfold.
  destruct (sameType ty Fragment); [constructor|].
  destruct (sameType ty X).
  - constructor; [|constructor]. split; simpl; [reflexivity|].
    now rewrite append_empty_r.
  - destruct children as [c|]; [|constructor].
    cbn [app].
    apply (forOfCollect_located (NElem ty nm (Some c)) X name (toArray c)
             [] [] initElementCounts); try reflexivity.
    exact IH.
Qed.

(** ** Positions of the matches *)

Lemma hasType_root (ty : ElementType) (T : Node) :
  hasType ty T [] <-> typeOf T = Some ty.
Proof.
  unfold hasType. simpl. split.
  - intros [n [Hn Hty]]. now injection Hn as ->.
  - intros H. now exists T.
Qed.

Lemma hasType_child (ty : ElementType) (T : Node) (i : nat) (p : list nat) :
  hasType ty T (i :: p) <->
  exists child, nth_error (childrenOf T) i = Some child /\ hasType ty child p.
Proof.
  unfold hasType. simpl. destruct (nth_error (childrenOf T) i) as [child|].
  - split.
    + intros H. now exists child.
    + intros [child' [Heq H]]. now injection Heq as <-.
  - split.
    + intros [n [Hn _]]. discriminate.
    + intros [child [Heq _]]. discriminate.
Qed.

Lemma reachable_root (X : ElementType) (T : Node) :
  reachable X T [] <-> typeOf T = Some X /\ X <> Fragment.
Proof.
  unfold reachable, firstMatch, unwrapped. split.
  - intros [[Hty _] Hun]. apply hasType_root in Hty. split; [assumption|].
    intros ->. apply (Hun [] []); [reflexivity|]. now apply hasType_root.
  - intros [Hty Hne]. repeat split.
    + now apply hasType_root.
    + intros q r Heq Hr. symmetry in Heq. apply app_eq_nil in Heq. tauto.
    + intros q r Heq. symmetry in Heq. apply app_eq_nil in Heq.
      destruct Heq as [-> _]. rewrite hasType_root. congruence.
Qed.

Lemma reachable_child (X : ElementType) (T : Node) (i : nat) (p : list nat) :
  reachable X T (i :: p) <->
  typeOf T <> Some X /\ typeOf T <> Some Fragment /\
  exists child, nth_error (childrenOf T) i = Some child /\ reachable X child p.
Proof.
  unfold reachable, firstMatch, unwrapped. split.
  - intros [[Hty Hanc] Hun].
    apply hasType_child in Hty. destruct Hty as [child [Hnth Hty]].
    split; [|split].
    + intros H. apply (Hanc [] (i :: p)); [reflexivity|discriminate|].
      now apply hasType_root.
    + intros H. apply (Hun [] (i :: p)); [reflexivity|]. now apply hasType_root.
    + exists child. split; [assumption|]. repeat split; [assumption| |].
      * intros q r Heq Hr Hq. apply (Hanc (i :: q) r); [now rewrite Heq|assumption|].
        apply hasType_child. now exists child.
      * intros q r Heq Hq. apply (Hun (i :: q) r); [now rewrite Heq|].
        apply hasType_child. now exists child.
  - intros [HnX [HnF [child [Hnth [[Hty Hanc] Hun]]]]]. repeat split.
    + apply hasType_child. now exists child.
    + intros q r Heq Hr Hq. destruct q as [|j q].
      * apply hasType_root in Hq. contradiction.
      * simpl in Heq. injection Heq as <- Heq.
        apply hasType_child in Hq. destruct Hq as [child' [Hnth' Hq]].
        rewrite Hnth in Hnth'. injection Hnth' as <-.
        now apply (Hanc q r).
    + intros q r Heq Hq. destruct q as [|j q].
      * apply hasType_root in Hq. contradiction.
      * simpl in Heq. injection Heq as <- Heq.
        apply hasType_child in Hq. destruct Hq as [child' [Hnth' Hq]].
        rewrite Hnth in Hnth'. injection Hnth' as <-.
        now apply (Hun q r).
Qed.

Lemma childPaths_In (paths : Node -> list (list nat)) (children : list Node) :
  forall (i : nat) (p : list nat),
  In p (childPaths paths i children) <->
  exists k child p', p = (i + k) :: p' /\
                     nth_error children k = Some child /\ In p' (paths child).
Proof.
  induction children as [|c rest IH]; intros i p; simpl.
  - split; [tauto|]. intros [k [child [p' [_ [H _]]]]]. destruct k; discriminate.
  - rewrite in_app_iff, in_map_iff, IH. split.
    + intros [[p' [<- Hin]]|[k [child [p' [-> [Hnth Hin]]]]]].
      * exists 0, c, p'. rewrite Nat.add_0_r. now repeat split.
      * exists (S k), child, p'. repeat split; [|assumption|assumption].
        f_equal. lia.
    + intros [k [child [p' [-> [Hnth Hin]]]]]. destruct k as [|k]; simpl in Hnth.
      * left. injection Hnth as ->. exists p'. rewrite Nat.add_0_r. now split.
      * right. exists k, child, p'. repeat split; [|assumption|assumption].
        f_equal. lia.
Qed.

(** [matchPaths] lists exactly the reachable matches. *)
Lemma matchPaths_reachable (X : ElementType) (T : Node) :
  forall p, In p (matchPaths X T) <-> reachable X T p.
Proof.
  induction T as [T IH] using Node_children_ind. intros p.
  assert (Hleaf : typeOf T = None -> In p (matchPaths X T) <-> reachable X T p).
  { intros Hty. rewrite matchPaths_leaf by assumption. split; [intros []|].
    destruct p as [|i p].
    - rewrite reachable_root. intros [H _]. congruence.
    - rewrite reachable_child. intros [_ [_ [child [Hnth _]]]].
      destruct T; try discriminate; destruct i; discriminate. }
  destruct T as [| | | | |ty nm children]; try (now apply Hleaf).
  clear Hleaf. rewrite matchPaths_unfold.
  destruct (sameType ty Fragment) eqn:EF.
  - apply sameType_true in EF. subst ty. split; [intros []|].
    destruct p as [|i p].
    + rewrite reachable_root. simpl. intros [H Hne]. congruence.
    + rewrite reachable_child. simpl. tauto.
  - apply sameType_false in EF. destruct (sameType ty X) eqn:EX.
    + apply sameType_true in EX. subst ty. destruct p as [|i p].
      * rewrite reachable_root. simpl. tauto.
      * rewrite reachable_child. simpl. split; [|tauto].
        intros [H|[]]. discriminate.
    + apply sameType_false in EX. rewrite childPaths_In. destruct p as [|i p].
      * rewrite reachable_root. simpl. split.
        -- intros [k [child [p' [H _]]]]. discriminate.
        -- intros [H _]. congruence.
      * rewrite reachable_child. split.
        -- intros [k [child [p' [Heq [Hnth Hin]]]]]. simpl in Heq.
           injection Heq as -> ->.
           repeat split; try (simpl; congruence).
           exists child. split; [assumption|].
           rewrite Forall_forall in IH. apply IH; [|assumption].
           now apply nth_error_In in Hnth.
        -- intros [_ [_ [child [Hnth Hr]]]]. exists i, child, p.
           repeat split; [assumption|].
           rewrite Forall_forall in IH. apply IH; [|assumption].
           now apply nth_error_In in Hnth.
Qed.

Lemma childPaths_NoDup (paths : Node -> list (list nat)) (children : list Node) :
  Forall (fun child => NoDup (paths child)) children ->
  forall i, NoDup (childPaths paths i children).
Proof.
  induction 1 as [|c rest Hc Hrest IH]; intros i; simpl; [constructor|].
  apply NoDup_app.
  - apply Injective_map_NoDup; [|assumption].
    intros a b H. now injection H.
  - apply IH.
  - intros p Hin Hin'. apply in_map_iff in Hin. destruct Hin as [p' [<- _]].
    apply childPaths_In in Hin'. destruct Hin' as [k [_ [p'' [Heq _]]]].
    injection Heq as Heq _. lia.
Qed.

Lemma matchPaths_NoDup (X : ElementType) (T : Node) : NoDup (matchPaths X T).
Proof.
  induction T as [T IH] using Node_children_ind.
  destruct T as [| | | | |ty nm children]; try constructor.
  rewrite matchPaths_unfold.
  destruct (sameType ty Fragment); [constructor|].
  destruct (sameType ty X).
  - constructor; [intros []|constructor].
  - now apply childPaths_NoDup.
Qed.

Lemma preorderLe_cons (i : nat) (p q : list nat) :
  preorderLe (i :: p) (i :: q) = preorderLe p q.
Proof. simpl. now rewrite Nat.ltb_irrefl, Nat.eqb_refl. Qed.

(** A traversal meets the positions of [childPaths] in pre-order. *)
Lemma childPaths_preorder (paths : Node -> list (list nat))
    (children : list Node) :
  Forall (fun child => forall p rest, paths child = p :: rest ->
            forall q, In q (paths child) -> preorderLe p q = true) children ->
  forall i p rest, childPaths paths i children = p :: rest ->
  forall q, In q (childPaths paths i children) -> preorderLe p q = true.
Proof.
  induction 1 as [|c cs Hc Hcs IH]; intros i p rest Heq q Hin; simpl in *.
  - discriminate.
  - destruct (paths c) as [|p0 rest0] eqn:Ec; simpl in *.
    + now apply (IH (S i) p rest).
    + injection Heq as <- _. destruct Hin as [<-|Hin].
      * rewrite preorderLe_cons. apply (Hc p0 rest0 eq_refl). now left.
      * apply in_app_iff in Hin. destruct Hin as [Hin|Hin].
        -- apply in_map_iff in Hin. destruct Hin as [q' [<- Hq']].
           rewrite preorderLe_cons. apply (Hc p0 rest0 eq_refl). now right.
        -- apply childPaths_In in Hin. destruct Hin as [k [_ [q' [-> _]]]].
           simpl. replace (i <? S (i + k))%nat with true; [reflexivity|].
           symmetry. apply Nat.ltb_lt. lia.
Qed.

Lemma matchPaths_preorder (X : ElementType) (T : Node) :
  forall p rest, matchPaths X T = p :: rest ->
  forall q, In q (matchPaths X T) -> preorderLe p q = true.
Proof.
  induction T as [T IH] using Node_children_ind.
  destruct T as [| | | | |ty nm children]; try discriminate.
  rewrite matchPaths_unfold.
  destruct (sameType ty Fragment); [discriminate|].
  destruct (sameType ty X).
  - intros p rest Heq q [<-|[]]. now injection Heq as <-.
  - now apply childPaths_preorder.
Qed.

(** ** The single-match traversal against the naming traversal *)

Lemma forOfFirst_head (X : ElementType) (name : string) (children : list Node) :
  Forall (fun child => forall nm,
            getElement child X =
            option_map element (hd_error (getAllElements child X [] nm)))
         children ->
  forall elementCounts,
  forOfFirst (fun child => getElement child X) children =
  option_map element
    (hd_error (forOfCollect
                 (fun child childName => getAllElements child X [] childName)
                 name children elementCounts [])).
Proof.
  induction 1 as [|child rest Hchild Hrest IH]; intros counts; [reflexivity|].
  rewrite forOfCollect_cons. cbn [forOfFirst].
  rewrite (Hchild (name ++ fst (getElementName child counts))%string).
  destruct (getAllElements child X [] _) as [|r out]; simpl.
  - apply IH.
  - reflexivity.
Qed.

Lemma getElement_head (X : ElementType) (T : Node) :
  forall name,
  getElement T X = option_map element (hd_error (getAllElements T X [] name)).
Proof.
  induction T as [T IH] using Node_children_ind. intros name.
  destruct T as [| | | | |ty nm children]; try reflexivity.
  rewrite getElement_unfold, getAllElements_unfold.
  destruct (sameType ty Fragment); [reflexivity|].
  destruct (sameType ty X); [reflexivity|].
  destruct children as [c|]; [|reflexivity].
  cbn [app]. now apply forOfFirst_head.
Qed.

(** [getElement] returns the node at the first position of [matchPaths]. *)
Lemma getElement_first_path (X : ElementType) (T : Node) :
  getElement T X = match matchPaths X T with
                   | [] => None
                   | p :: _ => nodeAt T p
                   end.
Proof.
  rewrite (getElement_head X T "").
  destruct (getAllElements_located X T "") as [|r p out paths [Hat _] _];
    simpl; [reflexivity|now rewrite Hat].
Qed.

(** ** The claims on the traversals *)

Lemma firstMatch_fragmentTree : firstMatch ChartTooltip fragmentTree [0; 0].
Proof.
  split.
  - exists tooltip. split; reflexivity.
  - intros q r Heq Hr [n [Hn Hty]].
    destruct q as [|a [|b [|c q]]]; simpl in Heq.
    + injection Hn as <-. discriminate.
    + injection Heq as <- _. injection Hn as <-. discriminate.
    + injection Heq as _ _ Heq. now subst r.
    + discriminate.
Qed.

(** C2, as the spec has it, fails: the tooltip inside the [Fragment] is a
    node of type [ChartTooltip] below no other [ChartTooltip], and
    [getAllElements] returns nothing for it. *)
Lemma getAllElements_fragment_counterexample :
  ~ exists paths : list (list nat),
      NoDup paths /\
      (forall p, In p paths <-> firstMatch ChartTooltip fragmentTree p) /\
      Forall2 (fun r p => nodeAt fragmentTree p = Some (element r))
        (getAllElements fragmentTree ChartTooltip [] "") paths.
Proof.
  intros [paths [_ [Hin HF]]].
  assert (Hout : getAllElements fragmentTree ChartTooltip [] "" = [])
    by reflexivity.
  rewrite Hout in HF. inversion HF; subst.
  apply (proj2 (Hin [0; 0])). apply firstMatch_fragmentTree.
Qed.

Lemma outsideNestedArrays_prefix (T : Node) (q r : list nat) :
  outsideNestedArrays T (q ++ r) -> outsideNestedArrays T q.
Proof.
  intros H q1 r1 items Heq Hr1. apply (H q1 (r1 ++ r) items).
  - rewrite Heq. now rewrite app_assoc.
  - intros E. apply app_eq_nil in E. tauto.
Qed.

Lemma outsideNestedArrays_child (T child : Node) (i : nat) (p : list nat) :
  nth_error (itemsOf T) i = Some child ->
  outsideNestedArrays T (i :: p) -> outsideNestedArrays child p.
Proof.
  intros Hnth H q r items Heq Hr Hq.
  apply (H (i :: q) r items); [now rewrite Heq|assumption|].
  simpl. now rewrite Hnth.
Qed.

Lemma outsideNestedArrays_root (T : Node) (i : nat) (p : list nat) :
  outsideNestedArrays T (i :: p) -> itemsOf T = childrenOf T.
Proof.
  intros H. destruct T; try reflexivity.
  exfalso. apply (H [] (i :: p) items); [reflexivity|discriminate|reflexivity].
Qed.

(** Outside nested arrays, a position is one that [toArray(props.children)]
    leads to. *)
Lemma nodeIn_nodeAt (p : list nat) :
  forall T, outsideNestedArrays T p -> nodeIn T p = nodeAt T p.
Proof.
  induction p as [|i p IH]; intros T H; [reflexivity|].
  simpl. rewrite (outsideNestedArrays_root T i p H).
  destruct (nth_error (childrenOf T) i) as [child|] eqn:E; [|reflexivity].
  apply IH. apply (outsideNestedArrays_child T child i p); [|assumption].
  now rewrite (outsideNestedArrays_root T i p H).
Qed.

Lemma nodeAt_outsideNestedArrays (p : list nat) :
  forall T n, nodeAt T p = Some n -> outsideNestedArrays T p.
Proof.
  induction p as [|i p IH]; intros T n H q r items Heq Hr Hq.
  - symmetry in Heq. apply app_eq_nil in Heq. tauto.
  - simpl in H. destruct (nth_error (childrenOf T) i) as [child|] eqn:E;
      [|discriminate].
    assert (HT : itemsOf T = childrenOf T).
    { destruct T; try reflexivity. destruct i; discriminate. }
    destruct q as [|j q].
    + injection Hq as ->. destruct i; discriminate.
    + simpl in Heq. injection Heq as <- Heq.
      simpl in Hq. rewrite HT, E in Hq.
      now apply (IH child n H q r items).
Qed.

Lemma hasTypeIn_hasType (ty : ElementType) (T : Node) (q : list nat) :
  outsideNestedArrays T q -> (hasTypeIn ty T q <-> hasType ty T q).
Proof.
  intros H. unfold hasTypeIn, hasType. now rewrite (nodeIn_nodeAt q T H).
Qed.

(** The nodes the traversal reaches are the first matches outside fragments
    and outside nested arrays. *)
Lemma reachable_in_tree (X : ElementType) (T : Node) (p : list nat) :
  reachable X T p <->
  firstMatchIn X T p /\ outsideFragments T p /\ outsideNestedArrays T p.
Proof.
  split.
  - intros [[Hty Hanc] Hun].
    assert (Hout : outsideNestedArrays T p).
    { destruct Hty as [n [Hn _]]. now apply (nodeAt_outsideNestedArrays p T n). }
    assert (Hq : forall q r, p = q ++ r -> outsideNestedArrays T q).
    { intros q r ->. now apply (outsideNestedArrays_prefix T q r). }
    repeat split.
    + now apply hasTypeIn_hasType.
    + intros q r Heq Hr Hin. apply (Hanc q r Heq Hr).
      apply hasTypeIn_hasType; [now apply (Hq q r)|assumption].
    + intros q r Heq Hin. apply (Hun q r Heq).
      apply hasTypeIn_hasType; [now apply (Hq q r)|assumption].
    + exact Hout.
  - intros [[Hty Hanc] [Hun Hout]].
    assert (Hq : forall q r, p = q ++ r -> outsideNestedArrays T q).
    { intros q r ->. now apply (outsideNestedArrays_prefix T q r). }
    repeat split.
    + now apply hasTypeIn_hasType.
    + intros q r Heq Hr Hin. apply (Hanc q r Heq Hr).
      apply hasTypeIn_hasType; [now apply (Hq q r)|assumption].
    + intros q r Heq Hin. apply (Hun q r Heq).
      apply hasTypeIn_hasType; [now apply (Hq q r)|assumption].
Qed.

(** C2 (amended).  [getAllElements(T, X, [], "")] holds exactly one record
    for each node of [T] that has type [X], is below no other node of type
    [X], is neither inside nor itself a [Fragment], and is not inside an
    array that is itself a node of the tree (an array nested in a children
    array, or an array given as the tree), and no other record: the records
    and the positions of those nodes correspond one to one.  Here every
    item of every array is a node of the tree.  The tooltip of
    [[[tooltip], Line]] is in a nested array, and there is no record for
    it. *)
Theorem getAllElements_one_record_per_match (T : Node) (X : ElementType) :
  (exists paths : list (list nat),
     NoDup paths /\
     (forall p, In p paths <->
        firstMatchIn X T p /\ outsideFragments T p /\ outsideNestedArrays T p) /\
     Forall2 (fun r p => nodeIn T p = Some (element r))
       (getAllElements T X [] "") paths) /\
  (firstMatchIn ChartTooltip nestedChildrenTree [0; 0] /\
   outsideFragments nestedChildrenTree [0; 0] /\
   getAllElements nestedChildrenTree ChartTooltip [] "" = []).
Proof.
  split.
  - exists (matchPaths X T). split; [apply matchPaths_NoDup|]. split.
    + intros p. rewrite matchPaths_reachable. apply reachable_in_tree.
    + assert (HF := getAllElements_located X T "").
      assert (Hin : forall p, In p (matchPaths X T) -> outsideNestedArrays T p).
      { intros p Hp. apply matchPaths_reachable, reachable_in_tree in Hp. tauto. }
      revert HF Hin. generalize (matchPaths X T) (getAllElements T X [] "").
      intros paths out HF. induction HF as [|r p out paths [Hat _] HF IH];
        intros Hin; constructor.
      * rewrite nodeIn_nodeAt; [assumption|]. apply Hin. now left.
      * apply IH. intros q Hq. apply Hin. now right.
  - assert (Hno : forall ty q r, [0; 0] = q ++ r -> r <> [] ->
              ty <> OtherType "Prism" ->
              ~ hasTypeIn ty nestedChildrenTree q).
    { intros ty q r Heq Hr Hne [n [Hn Hty]].
      destruct q as [|a [|b [|c q]]]; simpl in Heq.
      - injection Hn as <-. simpl in Hty. congruence.
      - injection Heq as <- _. injection Hn as <-. discriminate.
      - injection Heq as _ _ Heq. now subst r.
      - discriminate. }
    split; [|split; [|reflexivity]].
    + split.
      * exists tooltip. split; reflexivity.
      * intros q r Heq Hr. now apply (Hno ChartTooltip q r).
    + intros q r Heq. destruct r as [|x r].
      * rewrite app_nil_r in Heq. subst q. intros [n [Hn Hty]].
        injection Hn as <-. discriminate.
      * apply (Hno Fragment q (x :: r)); [assumption|discriminate|discriminate].
Qed.

(** C3.  With a non-empty accumulator the loop over the children receives
    the accumulator back from every child and the final spread puts it in
    front once more: on the root of [useTooltips] over one tooltip, a seeded
    accumulator comes back with its entry twice. *)
Theorem getAllElements_duplicates_accumulator :
  getAllElements tooltipTree ChartTooltip [seedRecord] "" =
  [seedRecord; seedRecord; {| name := ""; element := tooltip |}].
Proof. reflexivity. Qed.

(** C4, as the spec has it, fails: the only record found for [Line] in
    [lineTree] is named [line0], the segment of the matched node itself,
    while the segments of its ancestors alone make the empty name. *)
Lemma getAllElements_own_segment_counterexample :
  getAllElements lineTree Line [] "" =
    [{| name := "line0"; element := NElem Line None None |}] /\
  forall p, nodeAt lineTree p = Some (NElem Line None None) ->
            join "" (ancestorSegments lineTree p) <> "line0".
Proof.
  split; [reflexivity|]. intros p Hp.
  destruct p as [|i p]; [discriminate|].
  destruct i as [|i]; [|destruct i; discriminate].
  destruct p as [|j p]; [discriminate|].
  destruct j; discriminate.
Qed.

Lemma join_empty_app (l1 l2 : list string) :
  join "" (l1 ++ l2) = (join "" l1 ++ join "" l2)%string.
Proof.
  induction l1 as [|a l1 IH]; [reflexivity|].
  cbn [app]. rewrite !join_empty_cons, IH. now rewrite append_assoc.
Qed.

(** C4 (amended).  Every record of [getAllElements(T, X, [], "")] is the
    node at a position of a reachable match, and its name is the
    concatenation, with no separator, of the segment names given to the
    nodes on the way from the root to the matched node: the root has no
    segment, the matched node's own segment is included (it is empty for a
    tooltip or a popover).  An empty segment adds nothing. *)
Theorem getAllElements_name_is_path_segments (T : Node) (X : ElementType) :
  (exists paths : list (list nat),
     (forall p, In p paths -> firstMatch X T p /\ unwrapped T p) /\
     Forall2 (fun r p => nodeAt T p = Some (element r) /\
                         name r = join "" (segmentsAlong T p))
       (getAllElements T X [] "") paths) /\
  (forall l1 l2, join "" (l1 ++ "" :: l2) = join "" (l1 ++ l2)).
Proof.
  split.
  - exists (matchPaths X T). split.
    + intros p Hp. now apply matchPaths_reachable.
    + apply (getAllElements_located X T "").
  - intros l1 l2. rewrite !join_empty_app, join_empty_cons. reflexivity.
Qed.

(** C5.  [getElement] is a total function into an optional node.  It
    returns nothing on undefined, a boolean, a string, a value without a
    [type] and on a [Fragment]; on an element of the target type it returns
    that element, its children unsearched (of an Axis inside an Axis the
    outer one); otherwise it returns what the first child, in order, returns
    that returns something, and nothing without a [children] prop.  Over the
    whole tree: it returns nothing exactly when no match is reachable, and
    what it returns is the reachable match that a depth-first pre-order walk
    meets first. *)
Theorem getElement_total_first_match (T : Node) (X : ElementType) :
  (getElement NUndefined X = None /\
   (forall b, getElement (NBool b) X = None) /\
   (forall s, getElement (NString s) X = None) /\
   getElement NObject X = None /\
   (forall items, getElement (NArray items) X = None) /\
   (forall nm ch, getElement (NElem Fragment nm ch) X = None)) /\
  (forall nm ch, X <> Fragment ->
     getElement (NElem X nm ch) X = Some (NElem X nm ch)) /\
  getElement nestedAxisTree Axis = Some outerAxis /\
  (forall ty nm, ty <> Fragment -> ty <> X ->
     getElement (NElem ty nm None) X = None) /\
  (forall ty nm c, ty <> Fragment -> ty <> X ->
     getElement (NElem ty nm (Some c)) X =
     forOfFirst (fun child => getElement child X) (toArray c)) /\
  (getElement T X = None <->
   forall p, ~ (firstMatch X T p /\ unwrapped T p)) /\
  (forall e, getElement T X = Some e ->
     exists p, nodeAt T p = Some e /\
               (firstMatch X T p /\ unwrapped T p) /\
               forall q, firstMatch X T q /\ unwrapped T q ->
                         preorderLe p q = true).
Proof.
  split; [repeat split|]. split; [|split; [reflexivity|]].
  { intros nm ch Hne. rewrite getElement_unfold.
    apply sameType_false in Hne. now rewrite Hne, sameType_refl. }
  split; [|split].
  { intros ty nm HF HX. rewrite getElement_unfold.
    apply sameType_false in HF, HX. now rewrite HF, HX. }
  { intros ty nm c HF HX. rewrite getElement_unfold.
    apply sameType_false in HF, HX. now rewrite HF, HX. }
  rewrite getElement_first_path.
  assert (Hnode : forall p, In p (matchPaths X T) -> exists e, nodeAt T p = Some e).
  { intros p Hp. apply matchPaths_reachable in Hp.
    destruct Hp as [[[n [Hn _]] _] _]. now exists n. }
  destruct (matchPaths X T) as [|p rest] eqn:E.
  - split.
    + split; [|reflexivity]. intros _ p Hp.
      apply (matchPaths_reachable X T) in Hp. rewrite E in Hp. exact Hp.
    + discriminate.
  - split.
    + split.
      * intros Hnone. destruct (Hnode p (or_introl eq_refl)) as [e He].
        congruence.
      * intros Hno. exfalso. apply (Hno p).
        apply (matchPaths_reachable X T). rewrite E. now left.
    + intros e He. exists p. split; [assumption|]. split.
      * apply (matchPaths_reachable X T). rewrite E. now left.
      * intros q Hq. apply (matchPaths_preorder X T p rest E).
        now apply matchPaths_reachable.
Qed.

(** C9.  [getElement(T, X)] is the head of the exhaustive traversal: it
    returns nothing exactly when [getAllElements(T, X, [], "")] is empty,
    and otherwise the element of its first record. *)
Theorem getElement_is_head_of_getAllElements (T : Node) (X : ElementType) :
  (getElement T X = None <-> getAllElements T X [] "" = []) /\
  getElement T X = option_map element (hd_error (getAllElements T X [] "")).
Proof.
  split; [|apply getElement_head].
  rewrite (getElement_head X T "").
  destruct (getAllElements T X [] "") as [|r out]; simpl.
  - tauto.
  - split; discriminate.
Qed.

(** ** What the tokenizer consumes *)

Section QuantifierSound.

Variable P : ascii -> bool.
Variable m : MatchState -> Continuation -> option MatchState.
Variable bodyConsumes : bool.

Hypothesis m_sound : forall x k z,
  m x k = Some z ->
  exists y consumed,
    input x = consumed ++ input y /\
    Forall (fun c => P c = true) consumed /\
    (bodyConsumes = true -> consumed <> []) /\
    k y = Some z.

Lemma repeatMatcher_sound (k : Continuation) (fuel : nat) :
  forall min max x z,
  repeatMatcher m k fuel min max x = Some z ->
  exists y consumed,
    input x = consumed ++ input y /\
    Forall (fun c => P c = true) consumed /\
    (bodyConsumes = true -> 1 <= min -> max <> Some 0 -> consumed <> []) /\
    k y = Some z.
Proof.
  induction fuel as [|fuel IH]; intros min max x z H; [discriminate|].
  assert (Hstop : k x = Some z -> (min = 0 \/ max = Some 0) ->
                  exists y consumed,
                    input x = consumed ++ input y /\
                    Forall (fun c => P c = true) consumed /\
                    (bodyConsumes = true -> 1 <= min -> max <> Some 0 ->
                     consumed <> []) /\
                    k y = Some z).
  { intros Hk Hor. exists x, []. repeat split; try assumption; [constructor|].
    intros _ Hmin Hmax. destruct Hor; [lia|contradiction]. }
  assert (Hiter : forall d,
             d = (fun y : MatchState =>
                    if ((min =? 0) &&
                        (List.length (input y) =? List.length (input x)))%nat
                    then None
                    else repeatMatcher m k fuel (Nat.pred min)
                           (option_map Nat.pred max) y) ->
             m x d = Some z ->
             exists y consumed,
               input x = consumed ++ input y /\
               Forall (fun c => P c = true) consumed /\
               (bodyConsumes = true -> 1 <= min -> max <> Some 0 ->
                consumed <> []) /\
               k y = Some z).
  { intros d Hd Hm. apply m_sound in Hm.
    destruct Hm as [y1 [c1 [Hin1 [HP1 [Hne1 Hd1]]]]]. subst d.
    destruct (_ && _)%bool in Hd1; [discriminate|].
    apply IH in Hd1. destruct Hd1 as [y2 [c2 [Hin2 [HP2 [_ Hk]]]]].
    exists y2, (c1 ++ c2). repeat split.
    - rewrite Hin1, Hin2. now rewrite app_assoc.
    - apply Forall_app. now split.
    - intros Hb _ _ Happ. apply app_eq_nil in Happ. now apply (Hne1 Hb).
    - assumption. }
  simpl in H. destruct max as [[|mx]|].
  - apply Hstop; [assumption|now right].
  - destruct (min =? 0)%nat eqn:Emin.
    + destruct (m x _) as [z'|] eqn:Em.
      * injection H as ->. eapply Hiter; [reflexivity|exact Em].
      * apply Hstop; [assumption|]. left. now apply Nat.eqb_eq.
    + eapply Hiter; [reflexivity|exact H].
  - destruct (min =? 0)%nat eqn:Emin.
    + destruct (m x _) as [z'|] eqn:Em.
      * injection H as ->. eapply Hiter; [reflexivity|exact Em].
      * apply Hstop; [assumption|]. left. now apply Nat.eqb_eq.
    + eapply Hiter; [reflexivity|exact H].
Qed.

End QuantifierSound.

(** A match consumes a prefix of the input, made of characters its classes
    accept, and hands the rest to its continuation. *)
Lemma matcher_sound (P : ascii -> bool) (r : Regex) :
  consumesOnly P r ->
  forall x k z,
  matcher r x k = Some z ->
  exists y consumed,
    input x = consumed ++ input y /\
    Forall (fun c => P c = true) consumed /\
    (alwaysConsumes r = true -> consumed <> []) /\
    k y = Some z.
Proof.
  induction r as [p|r1 IH1 r2 IH2|r1 IH1 r2 IH2|min max r1 IH1|r1 IH1|];
    intros HP x k z H; simpl in H.
  - destruct (input x) as [|c cs] eqn:E; [discriminate|].
    destruct (p c) eqn:Ep; [|discriminate].
    exists {| before := Some c; input := cs |}, [c]. repeat split.
    + constructor; [now apply HP|constructor].
    + discriminate.
    + assumption.
  - destruct HP as [HP1 HP2].
    apply (IH1 HP1) in H. destruct H as [y1 [c1 [Hin1 [Hc1 [Hne1 H]]]]].
    apply (IH2 HP2) in H. destruct H as [y2 [c2 [Hin2 [Hc2 [Hne2 H]]]]].
    exists y2, (c1 ++ c2). repeat split.
    + rewrite Hin1, Hin2. now rewrite app_assoc.
    + apply Forall_app. now split.
    + simpl. intros Hb Happ. apply app_eq_nil in Happ. destruct Happ.
      apply orb_true_iff in Hb. destruct Hb as [Hb|Hb]; [now apply Hne1|now apply Hne2].
    + assumption.
  - destruct HP as [HP1 HP2]. simpl.
    destruct (matcher r1 x k) as [z'|] eqn:E1.
    + injection H as ->. apply (IH1 HP1) in E1.
      destruct E1 as [y [c [Hin [Hc [Hne Hk]]]]]. exists y, c.
      repeat split; try assumption.
      intros Hb. apply andb_true_iff in Hb. now apply Hne.
    + apply (IH2 HP2) in H.
      destruct H as [y [c [Hin [Hc [Hne Hk]]]]]. exists y, c.
      repeat split; try assumption.
      intros Hb. apply andb_true_iff in Hb. now apply Hne.
  - apply (repeatMatcher_sound P (matcher r1) (alwaysConsumes r1)) in H.
    + destruct H as [y [c [Hin [Hc [Hne Hk]]]]]. exists y, c.
      repeat split; try assumption.
      simpl. intros Hb. apply andb_true_iff in Hb. destruct Hb as [Hb Hmax].
      apply andb_true_iff in Hb. destruct Hb as [Hmin Hb].
      apply Hne; [assumption|now apply Nat.leb_le|].
      intros ->. discriminate.
    + intros x' k' z'. now apply IH1.
  - destruct (matcher r1 x Some); [|discriminate].
    exists x, []. repeat split; [constructor|discriminate|assumption].
  - destruct (xorb _ _); [|discriminate].
    exists x, []. repeat split; [constructor|discriminate|assumption].
Qed.

Lemma wordsPattern_consumesOnly : consumesOnly isAlnum wordsPattern.
Proof.
  unfold isAlnum. simpl. repeat split; intros c H; rewrite H;
    repeat rewrite orb_true_r; reflexivity.
Qed.

Lemma firstn_consumed (consumed rest : list ascii) :
  firstn (List.length (consumed ++ rest) - List.length rest) (consumed ++ rest)
  = consumed.
Proof.
  rewrite length_app, Nat.add_sub, firstn_app, Nat.sub_diag, firstn_all.
  simpl. apply app_nil_r.
Qed.

Lemma allChars_string_of_list (P : ascii -> bool) (l : list ascii) :
  Forall (fun c => P c = true) l -> allChars P (string_of_list_ascii l) = true.
Proof.
  induction 1 as [|c l Hc Hl IH]; simpl; [reflexivity|]. now rewrite Hc.
Qed.

(** The tokens of a global match are non-empty and made of what the
    pattern's classes accept. *)
Lemma matchGlobal_tokens (P : ascii -> bool) (r : Regex) :
  consumesOnly P r -> alwaysConsumes r = true ->
  forall rest prev skip,
  Forall (fun tok => tok <> "" /\ allChars P tok = true)
         (matchGlobal r prev rest skip).
Proof.
  intros HP Hne.
  assert (Htok : forall prev rest y,
             matcher r {| before := prev; input := rest |} Some = Some y ->
             string_of_list_ascii
               (firstn (List.length rest - List.length (input y)) rest) <> "" /\
             allChars P (string_of_list_ascii
               (firstn (List.length rest - List.length (input y)) rest)) = true).
  { intros prev rest y H. apply (matcher_sound P r HP) in H.
    destruct H as [y' [consumed [Hin [Hc [Hn Hk]]]]]. injection Hk as ->.
    simpl in Hin. subst rest. rewrite firstn_consumed. split.
    - destruct consumed; [now elim (Hn Hne)|discriminate].
    - now apply allChars_string_of_list. }
  induction rest as [|c cs IH]; intros prev skip.
  - destruct skip; cbn [matchGlobal]; [|constructor].
    destruct (matcher r _ Some) as [y|] eqn:E; [|constructor].
    constructor; [|constructor]. exact (Htok prev [] y E).
  - destruct skip; cbn [matchGlobal]; [|apply IH].
    destruct (matcher r _ Some) as [y|] eqn:E; [|apply IH].
    constructor; [|apply IH]. exact (Htok prev (c :: cs) y E).
Qed.

(** ** Where the tokenizer finds a token *)

Lemma matcher_Alt_l (r1 r2 : Regex) (x : MatchState) (k : Continuation) :
  matcher r1 x k <> None -> matcher (Alt r1 r2) x k <> None.
Proof. simpl. destruct (matcher r1 x k); congruence. Qed.

Lemma matcher_Alt_r (r1 r2 : Regex) (x : MatchState) (k : Continuation) :
  matcher r2 x k <> None -> matcher (Alt r1 r2) x k <> None.
Proof. simpl. destruct (matcher r1 x k); congruence. Qed.

(** A quantifier with no required repetition left matches wherever what
    follows it does. *)
Lemma repeatMatcher_optional (m : MatchState -> Continuation -> option MatchState)
    (k : Continuation) (fuel : nat) (max : option nat) (x : MatchState) :
  k x <> None -> repeatMatcher m k (S fuel) 0 max x <> None.
Proof.
  intros Hk. simpl. destruct max as [[|mx]|]; try assumption;
    destruct (m x _); congruence.
Qed.

Lemma matcher_star (r : Regex) (x : MatchState) (k : Continuation) :
  k x <> None -> matcher (star r) x k <> None.
Proof.
  intros Hk. unfold star. cbn [matcher]. rewrite Nat.add_1_r.
  now apply repeatMatcher_optional.
Qed.

Lemma matcher_opt (r : Regex) (x : MatchState) (k : Continuation) :
  k x <> None -> matcher (opt r) x k <> None.
Proof.
  intros Hk. unfold opt. cbn [matcher]. rewrite Nat.add_1_r.
  now apply repeatMatcher_optional.
Qed.

Lemma repeatMatcher_required (m : MatchState -> Continuation -> option MatchState)
    (k : Continuation) (fuel min : nat) (x : MatchState) :
  repeatMatcher m k (S fuel) (S min) None x =
  m x (fun y => repeatMatcher m k fuel min None y).
Proof. reflexivity. Qed.

Lemma matcher_plus_Class (p : ascii -> bool) (x : MatchState)
    (k : Continuation) (c : ascii) (cs : list ascii) :
  input x = c :: cs -> p c = true -> (forall y, k y <> None) ->
  matcher (plus (Class p)) x k <> None.
Proof.
  intros Hin Hp Hk. unfold plus. cbn [matcher].
  rewrite Nat.add_1_r, repeatMatcher_required. cbn [matcher].
  rewrite Hin, Hp. apply repeatMatcher_optional. apply Hk.
Qed.

(** At a letter or a digit the pattern has a match. *)
Lemma matcher_wordsPattern_alnum (x : MatchState) (c : ascii) (cs : list ascii) :
  input x = c :: cs -> isAlnum c = true ->
  matcher wordsPattern x Some <> None.
Proof.
  intros Hin Hc. unfold isAlnum in Hc.
  apply orb_true_iff in Hc. destruct Hc as [Hc|Hc];
    [apply orb_true_iff in Hc; destruct Hc as [Hc|Hc]|].
  - unfold wordsPattern. do 2 apply matcher_Alt_r. apply matcher_Alt_l.
    simpl. rewrite Hin, Hc. discriminate.
  - unfold wordsPattern. apply matcher_Alt_r. apply matcher_Alt_l.
    cbn [matcher]. apply matcher_opt.
    apply (matcher_plus_Class isLower x _ c cs Hin Hc).
    intros y. now apply matcher_star.
  - unfold wordsPattern. do 3 apply matcher_Alt_r.
    apply (matcher_plus_Class isDigit x _ c cs Hin Hc). discriminate.
Qed.

Lemma matchGlobal_nonempty (rest : list ascii) :
  forall prev skip,
  existsb isAlnum (skipn skip rest) = true ->
  matchGlobal wordsPattern prev rest skip <> [].
Proof.
  induction rest as [|c cs IH]; intros prev skip H.
  - destruct skip; discriminate.
  - destruct skip as [|skip].
    + cbn [matchGlobal].
      destruct (matcher wordsPattern _ Some) as [y|] eqn:E; [discriminate|].
      simpl in H. destruct (isAlnum c) eqn:Ec.
      * exfalso. revert E.
        now apply (matcher_wordsPattern_alnum _ c cs).
      * apply IH. exact H.
    + cbn [matchGlobal]. apply IH. exact H.
Qed.

Lemma matchGlobal_empty (rest : list ascii) :
  forall prev,
  forallb notAlnum rest = true ->
  matchGlobal wordsPattern prev rest 0 = [].
Proof.
  assert (Hnone : forall prev l,
             forallb notAlnum l = true ->
             matcher wordsPattern {| before := prev; input := l |} Some = None).
  { intros prev l H.
    destruct (matcher wordsPattern _ Some) as [y|] eqn:E; [|reflexivity].
    apply (matcher_sound isAlnum _ wordsPattern_consumesOnly) in E.
    destruct E as [y' [consumed [Hin [Hc [Hn _]]]]]. simpl in Hin.
    destruct consumed as [|c consumed]; [now elim (Hn eq_refl)|].
    subst l. simpl in H. inversion Hc as [|? ? Hc1 _]; subst.
    unfold notAlnum in H. rewrite Hc1 in H. discriminate. }
  induction rest as [|c cs IH]; intros prev H; cbn [matchGlobal];
    rewrite (Hnone _ _ H); [reflexivity|].
  apply IH. simpl in H. now apply andb_true_iff in H.
Qed.

Lemma allChars_forallb (P : ascii -> bool) (s : string) :
  allChars P s = forallb P (list_ascii_of_string s).
Proof. induction s as [|c s IH]; simpl; [reflexivity|now rewrite IH]. Qed.

Lemma forallb_notAlnum_existsb (l : list ascii) :
  forallb notAlnum l = negb (existsb isAlnum l).
Proof.
  induction l as [|c l IH]; simpl; [reflexivity|].
  rewrite IH. unfold notAlnum. now rewrite negb_orb.
Qed.

Lemma String_match_none (str : string) :
  String_match str wordsPattern = None <-> allChars notAlnum str = true.
Proof.
  unfold String_match. rewrite allChars_forallb. split.
  - intros H. destruct (forallb notAlnum _) eqn:E; [reflexivity|].
    rewrite forallb_notAlnum_existsb in E. apply negb_false_iff in E.
    apply (matchGlobal_nonempty _ None 0) in E.
    destruct (matchGlobal _ _ _ _); [contradiction|discriminate].
  - intros H. now rewrite (matchGlobal_empty _ None H).
Qed.

Lemma String_match_some (str : string) (words : list string) :
  String_match str wordsPattern = Some words ->
  words <> [] /\
  Forall (fun w => w <> "" /\ allChars isAlnum w = true) words.
Proof.
  unfold String_match. intros H.
  assert (HF := matchGlobal_tokens isAlnum wordsPattern
                  wordsPattern_consumesOnly eq_refl
                  (list_ascii_of_string str) None 0).
  destruct (matchGlobal _ _ _ _) as [|w ws]; [discriminate|].
  injection H as <-. split; [discriminate|assumption].
Qed.

(** ** The shape of camel case and snake case *)

Ltac all_ascii c :=
  destruct c as [[] [] [] [] [] [] [] []]; vm_compute; intros; congruence.

Lemma lowerChar_alnum (c : ascii) :
  isAlnum c = true -> isLowerOrDigit (lowerChar c) = true.
Proof. all_ascii c. Qed.

Lemma upperChar_alnum (c : ascii) :
  isAlnum c = true -> isAlnum (upperChar c) = true.
Proof. all_ascii c. Qed.

Lemma isLowerOrDigit_alnum (c : ascii) :
  isLowerOrDigit c = true -> isAlnum c = true.
Proof. all_ascii c. Qed.

Lemma isLowerOrDigit_snake (c : ascii) :
  isLowerOrDigit c = true -> isSnakeChar c = true.
Proof. all_ascii c. Qed.

Lemma isSnakeChar_notUpper (c : ascii) :
  isSnakeChar c = true -> notUpper c = true.
Proof. all_ascii c. Qed.

Lemma notAlnum_notUpper (c : ascii) :
  notAlnum c = true -> notUpper c = true.
Proof. all_ascii c. Qed.

Lemma allChars_impl (P Q : ascii -> bool) (s : string) :
  (forall c, P c = true -> Q c = true) ->
  allChars P s = true -> allChars Q s = true.
Proof.
  intros HPQ. induction s as [|c s IH]; simpl; [reflexivity|].
  intros H. apply andb_true_iff in H. destruct H as [Hc Hs].
  now rewrite (HPQ c Hc), (IH Hs).
Qed.

Lemma allChars_append (P : ascii -> bool) (a b : string) :
  allChars P (a ++ b) = allChars P a && allChars P b.
Proof.
  induction a as [|c a IH]; simpl; [reflexivity|].
  now rewrite IH, andb_assoc.
Qed.

Lemma allChars_toLowerCase (s : string) :
  allChars isAlnum s = true -> allChars isLowerOrDigit (toLowerCase s) = true.
Proof.
  induction s as [|c s IH]; simpl; [reflexivity|].
  intros H. apply andb_true_iff in H. destruct H as [Hc Hs].
  now rewrite (lowerChar_alnum c Hc), (IH Hs).
Qed.

Lemma allChars_join (P : ascii -> bool) (sep : string) (words : list string) :
  allChars P sep = true ->
  Forall (fun w => allChars P w = true) words ->
  allChars P (join sep words) = true.
Proof.
  intros Hsep. unfold join. induction 1 as [|w ws Hw Hws IH]; [reflexivity|].
  simpl. destruct ws as [|w' ws]; [assumption|].
  rewrite !allChars_append, Hw, Hsep. exact IH.
Qed.

(** A token in camel case: the piece [toCamelCase] makes of the word at
    index [i]. *)
Lemma camelPiece_alnum (word : string) (i : nat) :
  allChars isAlnum word = true ->
  allChars isAlnum
    (if (i =? 0)%nat then toLowerCase word
     else (toUpperCase (charAt0 word) ++ toLowerCase (slice1 word))%string)
  = true.
Proof.
  intros H. destruct (i =? 0)%nat.
  - apply (allChars_impl isLowerOrDigit); [apply isLowerOrDigit_alnum|].
    now apply allChars_toLowerCase.
  - destruct word as [|c word]; [reflexivity|].
    simpl in H. apply andb_true_iff in H. destruct H as [Hc Hw].
    simpl. rewrite (upperChar_alnum c Hc). simpl.
    apply (allChars_impl isLowerOrDigit); [apply isLowerOrDigit_alnum|].
    now apply allChars_toLowerCase.
Qed.

Lemma mapi_Forall {A B : Type} (f : A -> nat -> B) (P : A -> Prop)
    (Q : B -> Prop) (l : list A) :
  (forall a i, P a -> Q (f a i)) ->
  Forall P l -> forall i, Forall Q (mapi f i l).
Proof.
  intros Hf. induction 1 as [|a l Ha Hl IH]; intros i; simpl; constructor.
  - now apply Hf.
  - apply IH.
Qed.

(** X1.  The tokenizer finds no token exactly in the strings without a
    letter or a digit, and every such string is returned as it is by
    [toCamelCase] and by [toSnakeCase].  They are not the only strings
    returned as they are: ["abc"] has a token and is its own camel case and
    snake case. *)
Theorem no_token_iff_no_letter_or_digit (str : string) :
  (String_match str wordsPattern = None <-> allChars notAlnum str = true) /\
  (allChars notAlnum str = true ->
   toCamelCase str = str /\ toSnakeCase str = str) /\
  (allChars notAlnum "abc" = false /\
   toCamelCase "abc" = "abc" /\ toSnakeCase "abc" = "abc").
Proof.
  split; [apply String_match_none|]. split; [|repeat split].
  intros H. apply String_match_none in H.
  unfold toCamelCase, toSnakeCase. now rewrite H.
Qed.

(** X2.  Every token the pattern finds is a non-empty run of letters and
    digits, and a successful match has at least one token. *)
Theorem String_match_tokens_alphanumeric (str : string) (words : list string) :
  String_match str wordsPattern = Some words ->
  words <> [] /\
  Forall (fun w => w <> "" /\ allChars isAlnum w = true) words.
Proof. apply String_match_some. Qed.

Lemma String_match_tokens_alphanumeric_witness :
  ["My"; "Custom"; "Area"] <> [] /\
  Forall (fun w => w <> "" /\ allChars isAlnum w = true)
         ["My"; "Custom"; "Area"].
Proof.
  apply (String_match_tokens_alphanumeric "My Custom Area"). reflexivity.
Defined.

Lemma toCamelCase_shape (str : string) :
  allChars notAlnum str = false ->
  allChars isAlnum (toCamelCase str) = true /\
  exists c rest, toCamelCase str = String c rest /\ isLowerOrDigit c = true.
Proof.
  intros H. unfold toCamelCase.
  destruct (String_match str wordsPattern) as [words|] eqn:E.
  - apply String_match_some in E. destruct E as [Hne HF]. split.
    + apply allChars_join; [reflexivity|].
      apply (mapi_Forall _ (fun w => w <> "" /\ allChars isAlnum w = true));
        [|assumption].
      intros w i [_ Hw]. now apply camelPiece_alnum.
    + destruct words as [|w ws]; [contradiction|].
      inversion HF as [|? ? [Hw Ha] _]; subst.
      destruct w as [|c w]; [contradiction|].
      cbn [mapi Nat.eqb]. rewrite join_empty_cons. simpl.
      simpl in Ha. apply andb_true_iff in Ha. destruct Ha as [Hc _].
      eexists _, _. split; [reflexivity|]. now apply lowerChar_alnum.
  - apply String_match_none in E. congruence.
Qed.

(** X3.  On a string with a letter or a digit, [toCamelCase] returns
    letters and digits only, and the result starts with a lower-case letter
    or a digit. *)
Theorem toCamelCase_alphanumeric (str : string) :
  allChars notAlnum str = false ->
  allChars isAlnum (toCamelCase str) = true /\
  exists c rest, toCamelCase str = String c rest /\ isLowerOrDigit c = true.
Proof. apply toCamelCase_shape. Qed.

Lemma toCamelCase_alphanumeric_witness :
  allChars isAlnum (toCamelCase "-- total_sales (2023)") = true /\
  exists c rest, toCamelCase "-- total_sales (2023)" = String c rest /\
                 isLowerOrDigit c = true.
Proof.
  apply (toCamelCase_alphanumeric "-- total_sales (2023)"). reflexivity.
Defined.

(** X4.  [toSnakeCase] never returns an upper-case letter; on a string with
    a letter or a digit its result is made of lower-case letters, digits and
    underscores only. *)
Theorem toSnakeCase_lower_case (str : string) :
  allChars notUpper (toSnakeCase str) = true /\
  (allChars notAlnum str = false ->
   allChars isSnakeChar (toSnakeCase str) = true).
Proof.
  unfold toSnakeCase.
  destruct (String_match str wordsPattern) as [words|] eqn:E.
  - apply String_match_some in E. destruct E as [_ HF].
    assert (Hs : allChars isSnakeChar (join "_" (map toLowerCase words)) = true).
    { apply allChars_join; [reflexivity|]. apply Forall_map.
      eapply Forall_impl; [|exact HF]. intros w [_ Hw].
      apply (allChars_impl isLowerOrDigit); [apply isLowerOrDigit_snake|].
      now apply allChars_toLowerCase. }
    split; [|intros _; exact Hs].
    now apply (allChars_impl isSnakeChar); [apply isSnakeChar_notUpper|].
  - apply String_match_none in E. split; [|congruence].
    now apply (allChars_impl notAlnum); [apply notAlnum_notUpper|].
Qed.

(** ** Sanitizing, and traversing what was sanitized *)

Lemma flat_prism (l : list Node) :
  Forall (fun n => isPrismComponent n = true) l -> flat l = l.
Proof.
  unfold flat. induction 1 as [|n l Hn Hl IH]; simpl; [reflexivity|].
  rewrite IH. destruct n; try discriminate. reflexivity.
Qed.

Lemma flat_notArray (l : list Node) :
  Forall (fun n => notArray n = true) l -> flat l = l.
Proof.
  unfold flat. induction 1 as [|n l Hn Hl IH]; simpl; [reflexivity|].
  rewrite IH. destruct n; try discriminate; reflexivity.
Qed.

Lemma filter_all {A : Type} (f : A -> bool) (l : list A) :
  Forall (fun a => f a = true) l -> filter f l = l.
Proof.
  induction 1 as [|a l Ha Hl IH]; simpl; [reflexivity|]. now rewrite Ha, IH.
Qed.

Lemma sanitize_prism (children : Node) :
  Forall (fun n => isPrismComponent n = true) (sanitizeChartChildren children).
Proof.
  apply Forall_forall. intros n Hn. now apply filter_In in Hn.
Qed.

(** X5.  Sanitizing is idempotent, its result holds no array (flattening it
    again changes nothing), and it distributes over the concatenation of
    children arrays. *)
Theorem sanitizeChartChildren_idempotent (children : Node) :
  sanitizeChartChildren (NArray (sanitizeChartChildren children))
    = sanitizeChartChildren children /\
  flat (sanitizeChartChildren children) = sanitizeChartChildren children /\
  (forall l1 l2,
     sanitizeChartChildren (NArray (l1 ++ l2)) =
     sanitizeChartChildren (NArray l1) ++ sanitizeChartChildren (NArray l2)).
Proof.
  assert (Hflat := flat_prism _ (sanitize_prism children)).
  split; [|split].
  - unfold sanitizeChartChildren at 1. cbn [toArray]. rewrite Hflat.
    apply filter_all. apply sanitize_prism.
  - exact Hflat.
  - intros l1 l2. unfold sanitizeChartChildren, flat. cbn [toArray].
    now rewrite flat_map_app, filter_app.
Qed.

Lemma getElementName_not_prism (child : Node) (elementCounts : ElementCounts) :
  isPrismComponent child = false ->
  getElementName child elementCounts = ("", elementCounts).
Proof.
  destruct child as [| | | | |ty nm ch]; try reflexivity.
  simpl. intros H. apply negb_false_iff, sameType_true in H. now subst ty.
Qed.

Lemma getAllElements_not_prism (child : Node) (X : ElementType)
    (elements : list MappedElement) (name : string) :
  isPrismComponent child = false ->
  getAllElements child X elements name = elements.
Proof.
  destruct child as [| | | | |ty nm ch]; try reflexivity.
  intros H. rewrite getAllElements_unfold. simpl in H.
  apply negb_false_iff in H. now rewrite H.
Qed.

(** The loop skips what sanitizing removes: such a child gets the empty
    name, moves no counter and yields no match. *)
Lemma forOfCollect_filter (X : ElementType) (name : string)
    (children : list Node) :
  forall elementCounts,
  forOfCollect (fun child childName => getAllElements child X [] childName)
    name (filter isPrismComponent children) elementCounts [] =
  forOfCollect (fun child childName => getAllElements child X [] childName)
    name children elementCounts [].
Proof.
  induction children as [|child rest IH]; intros counts; [reflexivity|].
  cbn [filter]. destruct (isPrismComponent child) eqn:E.
  - rewrite !forOfCollect_cons. now rewrite IH.
  - rewrite (forOfCollect_cons _ name child rest).
    rewrite getElementName_not_prism by assumption.
    cbn [fst snd]. rewrite getAllElements_not_prism by assumption.
    apply IH.
Qed.

Lemma getAllElements_sanitized (ty : ElementType) (nm : option string)
    (children : list Node) (X : ElementType) (name : string) :
  Forall (fun n => notArray n = true) children ->
  ty <> X ->
  getAllElements
    (NElem ty nm (Some (NArray (sanitizeChartChildren (NArray children)))))
    X [] name =
  getAllElements (NElem ty nm (Some (NArray children))) X [] name.
Proof.
  intros Hflat Hne. rewrite !getAllElements_unfold.
  destruct (sameType ty Fragment); [reflexivity|].
  apply sameType_false in Hne. rewrite Hne.
  unfold sanitizeChartChildren, isChartChildElement. cbn [toArray app].
  rewrite (flat_notArray _ Hflat). apply forOfCollect_filter.
Qed.

(** X6.  For children without a nested array, sanitizing them first changes
    nothing of what the traversals find below a parent of another type than
    the target: [getAllElements] returns the same records under the same
    names, [getElement] the same node, [useTooltips] the same details. *)
Theorem sanitize_then_traverse (ty : ElementType) (nm : option string)
    (children : list Node) (X : ElementType) (name : string) :
  Forall (fun n => notArray n = true) children ->
  ty <> X ->
  let sanitized := sanitizeChartChildren (NArray children) in
  getAllElements (NElem ty nm (Some (NArray sanitized))) X [] name =
    getAllElements (NElem ty nm (Some (NArray children))) X [] name /\
  getElement (NElem ty nm (Some (NArray sanitized))) X =
    getElement (NElem ty nm (Some (NArray children))) X /\
  useTooltips sanitized = useTooltips children.
Proof.
  intros Hflat Hne sanitized. split; [|split].
  - now apply getAllElements_sanitized.
  - rewrite !(getElement_head X _ ""). unfold sanitized.
    now rewrite getAllElements_sanitized.
  - unfold useTooltips, prismRoot, sanitized.
    rewrite getAllElements_sanitized; [reflexivity|assumption|discriminate].
Qed.

Lemma sanitize_then_traverse_witness :
  let children :=
    [NString "text"; NElem Fragment None (Some tooltip);
     NElem Line None (Some tooltip); NBool true; NElem Bar None (Some tooltip)] in
  let sanitized := sanitizeChartChildren (NArray children) in
  getAllElements (prismRoot sanitized) ChartTooltip [] "" =
    getAllElements (prismRoot children) ChartTooltip [] "" /\
  getElement (prismRoot sanitized) ChartTooltip =
    getElement (prismRoot children) ChartTooltip /\
  useTooltips sanitized = useTooltips children.
Proof.
  apply (sanitize_then_traverse (OtherType "Prism") None
           [NString "text"; NElem Fragment None (Some tooltip);
            NElem Line None (Some tooltip); NBool true;
            NElem Bar None (Some tooltip)] ChartTooltip "").
  - repeat constructor.
  - discriminate.
Defined.

(** ** More on toggleStringArrayValue *)

Lemma filter_twice (value : string) (target : list string) :
  filter (fun item => negb (String.eqb item value))
    (filter (fun item => negb (String.eqb item value)) target)
  = filter (fun item => negb (String.eqb item value)) target.
Proof.
  apply filter_all. apply Forall_forall. intros x Hx.
  now apply filter_In in Hx.
Qed.

Lemma toggle_present (t : list string) (v : string) :
  In v t ->
  toggleStringArrayValue t v = filter (fun item => negb (String.eqb item v)) t.
Proof.
  intros H. unfold toggleStringArrayValue.
  apply includes_In in H. now rewrite H.
Qed.

Lemma toggle_absent (t : list string) (v : string) :
  ~ In v t -> toggleStringArrayValue t v = t ++ [v].
Proof.
  intros H. unfold toggleStringArrayValue.
  destruct (includes t v) eqn:E; [|reflexivity].
  apply includes_In in E. contradiction.
Qed.

Lemma filter_removes (t : list string) (v : string) :
  ~ In v (filter (fun item => negb (String.eqb item v)) t).
Proof.
  intros H. apply filter_In in H. destruct H as [_ H].
  rewrite String.eqb_refl in H. discriminate.
Qed.

(** X7.  Toggling a value leaves every other value where it is: the other
    values of the array keep their order and their number of occurrences,
    and a value other than the toggled one is in the result exactly when it
    was in the input. *)
Theorem toggleStringArrayValue_keeps_others (t : list string) (v : string) :
  filter (fun item => negb (String.eqb item v)) (toggleStringArrayValue t v)
    = filter (fun item => negb (String.eqb item v)) t /\
  (forall w, w <> v -> (In w (toggleStringArrayValue t v) <-> In w t)).
Proof.
  assert (H : filter (fun item => negb (String.eqb item v))
                (toggleStringArrayValue t v)
              = filter (fun item => negb (String.eqb item v)) t).
  { unfold toggleStringArrayValue. destruct (includes t v).
    - apply filter_twice.
    - rewrite filter_app. simpl. rewrite String.eqb_refl. simpl.
      apply app_nil_r. }
  split; [exact H|].
  intros w Hw.
  assert (Hf : forall l, In w l <->
                 In w (filter (fun item => negb (String.eqb item v)) l)).
  { intros l. rewrite filter_In. split; [|tauto].
    intros Hin. split; [assumption|].
    apply negb_true_iff. now apply String.eqb_neq. }
  rewrite (Hf (toggleStringArrayValue t v)), H. symmetry. apply Hf.
Qed.

(** X8.  Toggling twice gives the array back exactly when the value was
    absent, or was present once and in last place.  On a present value the
    first toggle removes every occurrence and the second appends one. *)
Theorem toggleStringArrayValue_round_trip_iff (t : list string) (v : string) :
  (toggleStringArrayValue (toggleStringArrayValue t v) v = t <->
   ~ In v t \/ exists t', t = t' ++ [v] /\ ~ In v t') /\
  (In v t ->
   toggleStringArrayValue t v = filter (fun item => negb (String.eqb item v)) t /\
   toggleStringArrayValue (toggleStringArrayValue t v) v =
     filter (fun item => negb (String.eqb item v)) t ++ [v]).
Proof.
  assert (Hpresent : In v t ->
            toggleStringArrayValue (toggleStringArrayValue t v) v =
            filter (fun item => negb (String.eqb item v)) t ++ [v]).
  { intros Hin. rewrite (toggle_present t v Hin).
    apply toggle_absent. apply filter_removes. }
  assert (Habsent : ~ In v t ->
            toggleStringArrayValue (toggleStringArrayValue t v) v = t).
  { intros Hn. rewrite (toggle_absent t v Hn).
    rewrite toggle_present by (apply in_or_app; right; now left).
    rewrite filter_app. simpl. rewrite String.eqb_refl. simpl.
    rewrite app_nil_r. now apply filter_out_absent. }
  split.
  - split.
    + intros H. destruct (in_dec string_dec v t) as [Hin|Hn]; [|now left].
      right. exists (filter (fun item => negb (String.eqb item v)) t).
      split; [|apply filter_removes].
      rewrite <- H at 1. now apply Hpresent.
    + intros [Hn|[t' [-> Hn]]]; [now apply Habsent|].
      rewrite Hpresent by (apply in_or_app; right; now left).
      rewrite filter_app. simpl. rewrite String.eqb_refl. simpl.
      rewrite app_nil_r. now rewrite filter_out_absent.
  - intros Hin. split; [now apply toggle_present|now apply Hpresent].
Qed.

(** X9.  Toggling keeps an array free of duplicates free of duplicates. *)
Theorem toggleStringArrayValue_NoDup (t : list string) (v : string) :
  NoDup t -> NoDup (toggleStringArrayValue t v).
Proof.
  intros H. unfold toggleStringArrayValue. destruct (includes t v) eqn:E.
  - now apply NoDup_filter.
  - apply NoDup_app; [assumption|repeat constructor; intros []|].
    intros a Ha [<-|[]]. apply includes_In in Ha. congruence.
Qed.

Lemma toggleStringArrayValue_NoDup_witness :
  NoDup (toggleStringArrayValue ["a"; "b"; "c"] "b").
Proof.
  apply toggleStringArrayValue_NoDup.
  repeat constructor; simpl; intuition discriminate.
Defined.

(** ** More on the traversals *)

Lemma reachable_typed (X : ElementType) (T : Node) (p : list nat) :
  reachable X T p ->
  X <> Fragment /\ exists nm ch, nodeAt T p = Some (NElem X nm ch).
Proof.
  intros [[[n [Hn Hty]] _] Hun]. split.
  - intros ->. apply (Hun p []); [now rewrite app_nil_r|]. now exists n.
  - destruct n as [| | | | |ty nm ch]; try discriminate.
    injection Hty as ->. now exists nm, ch.
Qed.

Lemma Forall2_In_l {A B : Type} (R : A -> B -> Prop) (l : list A)
    (l' : list B) (a : A) :
  Forall2 R l l' -> In a l -> exists b, In b l' /\ R a b.
Proof.
  induction 1 as [|x y l l' Hxy HF IH]; intros Hin; [contradiction|].
  destruct Hin as [<-|Hin].
  - exists y. split; [now left|assumption].
  - destruct (IH Hin) as [b [Hb Hab]]. exists b. split; [now right|assumption].
Qed.

Lemma Forall2_In_r {A B : Type} (R : A -> B -> Prop) (l : list A)
    (l' : list B) (b : B) :
  Forall2 R l l' -> In b l' -> exists a, In a l /\ R a b.
Proof.
  induction 1 as [|x y l l' Hxy HF IH]; intros Hin; [contradiction|].
  destruct Hin as [<-|Hin].
  - exists x. split; [now left|assumption].
  - destruct (IH Hin) as [a [Ha Hab]]. exists a. split; [now right|assumption].
Qed.

(** X10.  What [getElement] returns is an element of the target type,
    which is not [Fragment], and searching the returned element again
    returns it: [getElement] is idempotent. *)
Theorem getElement_returns_target (T : Node) (X : ElementType) (e : Node) :
  getElement T X = Some e ->
  typeOf e = Some X /\ X <> Fragment /\ isPrismComponent e = true /\
  getElement e X = Some e.
Proof.
  intros H. rewrite getElement_first_path in H.
  destruct (matchPaths X T) as [|p rest] eqn:E; [discriminate|].
  assert (Hr : reachable X T p).
  { apply matchPaths_reachable. rewrite E. now left. }
  apply reachable_typed in Hr. destruct Hr as [Hne [nm [ch Hat]]].
  rewrite Hat in H. injection H as <-.
  assert (HF : sameType X Fragment = false) by now apply sameType_false.
  repeat split; try assumption.
  - simpl. now rewrite HF.
  - rewrite getElement_unfold. now rewrite HF, sameType_refl.
Qed.

Lemma getElement_returns_target_witness :
  typeOf outerAxis = Some Axis /\ Axis <> Fragment /\
  isPrismComponent outerAxis = true /\
  getElement outerAxis Axis = Some outerAxis.
Proof.
  apply (getElement_returns_target nestedAxisTree Axis outerAxis). reflexivity.
Defined.

(** X11.  A [Fragment] is never found: with [Fragment] as the target,
    [getElement] returns nothing and [getAllElements] no record, whatever
    the tree. *)
Theorem Fragment_is_never_found (T : Node) (name : string) :
  getElement T Fragment = None /\ getAllElements T Fragment [] name = [].
Proof.
  assert (E : matchPaths Fragment T = []).
  { destruct (matchPaths Fragment T) as [|p rest] eqn:E; [reflexivity|].
    assert (Hr : reachable Fragment T p).
    { apply matchPaths_reachable. rewrite E. now left. }
    apply reachable_typed in Hr. now destruct Hr as [Hne _]. }
  split.
  - rewrite getElement_first_path. now rewrite E.
  - assert (HF := getAllElements_located Fragment T name).
    rewrite E in HF. now inversion HF.
Qed.

Lemma located_prefix (T : Node) (prefix : string)
    (out out0 : list MappedElement) (paths : list (list nat)) :
  Forall2 (located T prefix) out paths ->
  Forall2 (located T "") out0 paths ->
  out = map (fun r => {| name := prefix ++ name r; element := element r |})
            out0.
Proof.
  intros H. revert out0.
  induction H as [|r p out paths [Hat Hname] HF IH]; intros out0 H0;
    inversion H0 as [|r0 ? out0' ? [Hat0 Hname0] HF0]; subst; [reflexivity|].
  simpl. f_equal; [|now apply IH].
  destruct r as [rn re]. simpl in *. f_equal.
  - now rewrite Hname, Hname0.
  - congruence.
Qed.

(** X12.  The [name] argument is a prefix: called with a name,
    [getAllElements] returns the records it returns for the empty name, each
    name with that prefix before it. *)
Theorem getAllElements_name_prefix (T : Node) (X : ElementType)
    (prefix : string) :
  getAllElements T X [] prefix =
  map (fun r => {| name := prefix ++ name r; element := element r |})
      (getAllElements T X [] "").
Proof.
  apply (located_prefix T prefix _ _ (matchPaths X T));
    apply getAllElements_located.
Qed.

Lemma StronglySorted_app {A : Type} (R : A -> A -> Prop) (l1 l2 : list A) :
  StronglySorted R l1 -> StronglySorted R l2 ->
  (forall a b, In a l1 -> In b l2 -> R a b) ->
  StronglySorted R (l1 ++ l2).
Proof.
  induction 1 as [|a l1 Hl1 IH Ha]; intros H2 Hcross; [assumption|].
  simpl. constructor.
  - apply IH; [assumption|]. intros x y Hx Hy. apply Hcross; [now right|assumption].
  - apply Forall_app. split; [assumption|].
    apply Forall_forall. intros y Hy. apply Hcross; [now left|assumption].
Qed.

Lemma childPaths_sorted (paths : Node -> list (list nat)) (children : list Node) :
  Forall (fun child =>
            StronglySorted (fun p q => preorderLe p q = true) (paths child))
         children ->
  forall i,
  StronglySorted (fun p q => preorderLe p q = true)
                 (childPaths paths i children).
Proof.
  induction 1 as [|c cs Hc Hcs IH]; intros i; simpl; [constructor|].
  apply StronglySorted_app.
  - induction Hc as [|p l Hl IHl Hp]; simpl; constructor; [assumption|].
    apply Forall_map. eapply Forall_impl; [|exact Hp].
    intros q Hq. now rewrite preorderLe_cons.
  - apply IH.
  - intros a b Ha Hb. apply in_map_iff in Ha. destruct Ha as [p [<- _]].
    apply childPaths_In in Hb. destruct Hb as [k [_ [q [-> _]]]].
    simpl. replace (i <? S (i + k))%nat with true; [reflexivity|].
    symmetry. apply Nat.ltb_lt. lia.
Qed.

Lemma matchPaths_sorted (X : ElementType) (T : Node) :
  StronglySorted (fun p q => preorderLe p q = true) (matchPaths X T).
Proof.
  induction T as [T IH] using Node_children_ind.
  destruct T as [| | | | |ty nm children]; try constructor.
  rewrite matchPaths_unfold.
  destruct (sameType ty Fragment); [constructor|].
  destruct (sameType ty X).
  - repeat constructor.
  - now apply childPaths_sorted.
Qed.

(** X13.  With an empty accumulator the records of [getAllElements] come in
    document order: their nodes sit at the reachable matches, each position
    taken once, in the order a depth-first pre-order walk meets them. *)
Theorem getAllElements_document_order (T : Node) (X : ElementType)
    (name : string) :
  exists paths : list (list nat),
    Forall2 (fun r p => nodeAt T p = Some (element r))
      (getAllElements T X [] name) paths /\
    StronglySorted (fun p q => preorderLe p q = true) paths /\
    NoDup paths /\
    (forall p, In p paths <-> firstMatch X T p /\ unwrapped T p).
Proof.
  exists (matchPaths X T). split; [|split; [|split]].
  - eapply Forall2_impl; [|apply (getAllElements_located X T name)].
    intros r p [H _]. exact H.
  - apply matchPaths_sorted.
  - apply matchPaths_NoDup.
  - apply matchPaths_reachable.
Qed.

(** ** Default names among siblings *)

Lemma numberToString_inj (a b : Z) :
  numberToString a = numberToString b -> a = b.
Proof.
  assert (H : forall z, NilZero.int_of_string (numberToString z)
                        = Some (Z.to_int z)).
  { intros z. apply NilZero.isi; destruct z; simpl; try discriminate;
      intros E; injection E as E; now apply Unsigned.to_uint_nonnil in E. }
  intros E. assert (E' := H a). rewrite E, H in E'. injection E' as E'.
  rewrite <- (DecimalZ.of_to a), <- (DecimalZ.of_to b). now rewrite E'.
Qed.

Lemma append_inj_l (s a b : string) : (s ++ a = s ++ b)%string -> a = b.
Proof.
  induction s as [|c s IH]; simpl; intros H; [assumption|].
  injection H as H. now apply IH.
Qed.

Lemma countKind_cons (ty : ElementType) (n : Node) (l : list Node) :
  countKind ty (n :: l) = countKind ty [n] + countKind ty l.
Proof. change (n :: l) with ([n] ++ l). apply countKind_app. Qed.

Lemma countKind_firstn_lt (ty : ElementType) (children : list Node) :
  forall i j n,
  i < j -> nth_error children i = Some n -> typeOf n = Some ty ->
  countKind ty (firstn i children) < countKind ty (firstn j children).
Proof.
  induction children as [|c rest IH]; intros i j n Hij Hnth Hty.
  - destruct i; discriminate.
  - destruct j as [|j]; [lia|]. destruct i as [|i]; simpl in Hnth.
    + injection Hnth as ->. cbn [firstn]. rewrite countKind_cons.
      unfold countKind at 2. simpl. rewrite Hty, sameType_refl. simpl.
      unfold countKind at 1. simpl. lia.
    + cbn [firstn]. rewrite (countKind_cons ty c (firstn i rest)),
        (countKind_cons ty c (firstn j rest)).
      assert (H := IH i j n (proj2 (Nat.succ_lt_mono i j) Hij) Hnth Hty). lia.
Qed.

Lemma default_names_differ (ti tj : ElementType) (a b : Z) :
  counted ti = true -> counted tj = true ->
  (kindLabel ti ++ numberToString a)%string
    = (kindLabel tj ++ numberToString b)%string ->
  ti = tj /\ a = b.
Proof.
  intros Hi Hj H.
  destruct ti; try discriminate; destruct tj; try discriminate;
    cbn [kindLabel append] in H; try congruence;
    (split; [reflexivity|]); apply numberToString_inj;
    repeat (injection H as H); exact H.
Qed.

Lemma default_names_distinct_lt (children : list Node) (i j : nat)
    (ti tj : ElementType) (nmi nmj : option string) (chi chj : option Node) :
  i < j ->
  nth_error children i = Some (NElem ti nmi chi) ->
  nth_error children j = Some (NElem tj nmj chj) ->
  counted ti = true -> counted tj = true ->
  untitled (NElem ti nmi chi) = true -> untitled (NElem tj nmj chj) = true ->
  nth_error (segmentNames children) i <> nth_error (segmentNames children) j.
Proof.
  intros Hij Hi Hj Hci Hcj Hui Huj. unfold segmentNames.
  rewrite (segmentNamesFrom_default children initElementCounts i ti nmi chi
             Hi Hci Hui).
  rewrite (segmentNamesFrom_default children initElementCounts j tj nmj chj
             Hj Hcj Huj).
  intros E. injection E as E.
  apply default_names_differ in E; try assumption.
  destruct E as [<- E].
  assert (H := countKind_firstn_lt ti children i j _ Hij Hi eq_refl). lia.
Qed.

(** X14.  Among siblings named from a fresh counter map, two different
    untitled elements of counted kinds never get the same default name. *)
Theorem default_sibling_names_distinct (children : list Node) (i j : nat)
    (ti tj : ElementType) (nmi nmj : option string) (chi chj : option Node) :
  i <> j ->
  nth_error children i = Some (NElem ti nmi chi) ->
  nth_error children j = Some (NElem tj nmj chj) ->
  counted ti = true -> counted tj = true ->
  untitled (NElem ti nmi chi) = true -> untitled (NElem tj nmj chj) = true ->
  nth_error (segmentNames children) i <> nth_error (segmentNames children) j.
Proof.
  intros Hij Hi Hj Hci Hcj Hui Huj.
  destruct (Nat.lt_total i j) as [Hlt|[Heq|Hlt]]; [|contradiction|].
  - now apply (default_names_distinct_lt children i j ti tj nmi nmj chi chj).
  - intros E. symmetry in E. revert E.
    now apply (default_names_distinct_lt children j i tj ti nmj nmi chj chi).
Qed.

Lemma default_sibling_names_distinct_witness :
  nth_error (segmentNames [NElem Line None None; NElem Area None None;
                           NElem Line None None]) 0
  <> nth_error (segmentNames [NElem Line None None; NElem Area None None;
                              NElem Line None None]) 2.
Proof.
  apply (default_sibling_names_distinct
           [NElem Line None None; NElem Area None None; NElem Line None None]
           0 2 Line Line None None None None);
    try reflexivity. discriminate.
Defined.

(** ** Targets without a segment of their own *)

Lemma segment_of_uncounted (X : ElementType) (children : list Node) :
  counted X = false -> X <> Trendline ->
  forall elementCounts i n,
  nth_error children i = Some n -> typeOf n = Some X ->
  nth i (segmentNamesFrom elementCounts children) "" = "".
Proof.
  intros Hc Ht. induction children as [|c rest IH]; intros counts i n Hnth Hty.
  - destruct i; discriminate.
  - rewrite segmentNamesFrom_cons. destruct i as [|i]; simpl in Hnth.
    + injection Hnth as ->. simpl.
      destruct n as [| | | | |ty nm ch]; try reflexivity.
      injection Hty as ->. destruct X; try discriminate; try reflexivity.
      contradiction.
    + simpl. now apply (IH _ i n).
Qed.

Lemma join_ancestorSegments (X : ElementType) :
  counted X = false -> X <> Trendline ->
  forall p T,
  hasType X T p ->
  join "" (segmentsAlong T p) = join "" (ancestorSegments T p).
Proof.
  intros Hc Ht. unfold ancestorSegments.
  induction p as [|i p IH]; intros T H; [reflexivity|].
  apply hasType_child in H. destruct H as [child [Hnth H]].
  cbn [segmentsAlong]. rewrite Hnth. destruct p as [|k p].
  - apply hasType_root in H. cbn [segmentsAlong removelast].
    unfold segmentNames.
    now rewrite (segment_of_uncounted X _ Hc Ht _ i child Hnth H).
  - assert (Hne : segmentsAlong child (k :: p) <> []).
    { assert (H' := H). apply hasType_child in H'.
      destruct H' as [c' [Hk _]]. cbn [segmentsAlong]. rewrite Hk. discriminate. }
    specialize (IH child H).
    destruct (segmentsAlong child (k :: p)) as [|a l] eqn:E; [contradiction|].
    cbn [removelast]. cbn [removelast] in IH.
    rewrite join_empty_cons, IH. symmetry. apply join_empty_cons.
Qed.

(** X15.  When the target type is none of the six counted kinds nor
    Trendline (a ChartTooltip or a ChartPopover, for instance), a matched
    node has no segment of its own, and the name of its record is the
    concatenation of the segment names of its ancestors below the root. *)
Theorem getAllElements_name_of_ancestors (T : Node) (X : ElementType) :
  counted X = false -> X <> Trendline ->
  exists paths : list (list nat),
    (forall p, In p paths <-> firstMatch X T p /\ unwrapped T p) /\
    Forall2 (fun r p => nodeAt T p = Some (element r) /\
                        name r = join "" (ancestorSegments T p))
      (getAllElements T X [] "") paths.
Proof.
  intros Hc Ht. exists (matchPaths X T). split; [apply matchPaths_reachable|].
  assert (HF := getAllElements_located X T "").
  assert (Hin : forall p, In p (matchPaths X T) -> hasType X T p).
  { intros p Hp. apply matchPaths_reachable in Hp. now destruct Hp as [[H _] _]. }
  revert HF Hin. generalize (matchPaths X T) (getAllElements T X [] "").
  intros paths out HF. induction HF as [|r p out paths [Hat Hname] HF IH];
    intros Hin; constructor.
  - split; [assumption|]. rewrite Hname. simpl.
    apply (join_ancestorSegments X Hc Ht). apply Hin. now left.
  - apply IH. intros q Hq. apply Hin. now right.
Qed.

Lemma getAllElements_name_of_ancestors_witness :
  exists paths : list (list nat),
    (forall p, In p paths <->
               firstMatch ChartTooltip tooltipTree p /\ unwrapped tooltipTree p) /\
    Forall2 (fun r p => nodeAt tooltipTree p = Some (element r) /\
                        name r = join "" (ancestorSegments tooltipTree p))
      (getAllElements tooltipTree ChartTooltip [] "") paths.
Proof.
  apply (getAllElements_name_of_ancestors tooltipTree ChartTooltip).
  - reflexivity.
  - discriminate.
Defined.

(** ** The tooltip hook *)

(** X16.  [useTooltips] returns a detail exactly for the tooltips that
    [getAllElements] reaches below the chart root and whose [children] prop
    is truthy: the detail carries that [children] value as its callback,
    under the concatenated segment names of the tooltip's ancestors.  A
    tooltip without children, or inside a [Fragment], gives no detail. *)
Theorem useTooltips_details (children : list Node) (d : TooltipDetail.t) :
  In d (useTooltips children) <->
  exists p nm cb,
    (firstMatch ChartTooltip (prismRoot children) p /\
     unwrapped (prismRoot children) p) /\
    nodeAt (prismRoot children) p = Some (NElem ChartTooltip nm (Some cb)) /\
    truthyNode cb = true /\
    d = {| TooltipDetail.name :=
             join "" (ancestorSegments (prismRoot children) p);
           TooltipDetail.callback := cb |}.
Proof.
  unfold useTooltips.
  assert (HF := getAllElements_located ChartTooltip (prismRoot children) "").
  assert (Hanc : forall p, reachable ChartTooltip (prismRoot children) p ->
            join "" (segmentsAlong (prismRoot children) p) =
            join "" (ancestorSegments (prismRoot children) p)).
  { intros p [[Hty _] _].
    apply (join_ancestorSegments ChartTooltip); [reflexivity|discriminate|exact Hty]. }
  rewrite in_map_iff. split.
  - intros [r [<- Hr]]. apply filter_In in Hr. destruct Hr as [Hin Htruthy].
    destruct (Forall2_In_l _ _ _ _ HF Hin) as [p [Hp [Hat Hname]]].
    apply matchPaths_reachable in Hp.
    destruct (reachable_typed _ _ _ Hp) as [_ [nm [ch Hnode]]].
    rewrite Hnode in Hat. injection Hat as Hel. rewrite <- Hel in Htruthy.
    destruct ch as [cb|]; [|discriminate].
    exists p, nm, cb. repeat split; try apply Hp; try assumption.
    rewrite <- Hel, Hname. simpl. now rewrite Hanc.
  - intros [p [nm [cb [Hp [Hnode [Htruthy ->]]]]]].
    assert (Hp' := proj2 (matchPaths_reachable ChartTooltip _ p) Hp).
    destruct (Forall2_In_r _ _ _ _ HF Hp') as [r [Hin [Hat Hname]]].
    rewrite Hnode in Hat. injection Hat as Hel.
    exists r. split.
    + rewrite <- Hel, Hname. simpl. now rewrite Hanc.
    + apply filter_In. split; [assumption|]. now rewrite <- Hel.
Qed.

(** ** Selection signals *)

Lemma nullish_cases (v : Value) :
  nullish v VNull <> VUndefined /\
  (v <> VUndefined -> v <> VNull -> nullish v VNull = v) /\
  (v = VUndefined \/ v = VNull -> nullish v VNull = VNull).
Proof.
  destruct v; simpl; repeat split; try discriminate; try congruence;
    intros [H|H]; congruence.
Qed.

(** X17.  [setSelectedSignals] writes to the signals whose name is given
    and not empty, the id signal before the series signal, and to no other.
    What it writes is never [undefined].  Field by field: the id signal is
    set to the datum's [prismMarkId] when that is neither [undefined] nor
    [null], and to [null] when it is, or when no datum is selected; the
    series signal likewise from [prismSeriesId], whatever the other field
    holds. *)
Theorem setSelectedSignals_writes (selectedData : option Datum)
    (selectedIdSignalName selectedSeriesSignalName : option string) :
  let calls := setSelectedSignals selectedData selectedIdSignalName
                 selectedSeriesSignalName in
  map (fun call => Some (fst call)) calls =
    filter truthyName [selectedIdSignalName; selectedSeriesSignalName] /\
  Forall (fun call => snd call <> VUndefined) calls /\
  (selectedData = None -> Forall (fun call => snd call = VNull) calls) /\
  exists idValue seriesValue,
    calls = map (fun s => (s, idValue)) (writtenNames selectedIdSignalName) ++
            map (fun s => (s, seriesValue))
                (writtenNames selectedSeriesSignalName) /\
    (selectedData = None -> idValue = VNull /\ seriesValue = VNull) /\
    (forall d, selectedData = Some d ->
       (prismMarkId d <> VUndefined -> prismMarkId d <> VNull ->
        idValue = prismMarkId d) /\
       (prismMarkId d = VUndefined \/ prismMarkId d = VNull ->
        idValue = VNull) /\
       (prismSeriesId d <> VUndefined -> prismSeriesId d <> VNull ->
        seriesValue = prismSeriesId d) /\
       (prismSeriesId d = VUndefined \/ prismSeriesId d = VNull ->
        seriesValue = VNull)).
Proof.
  cbv zeta. unfold setSelectedSignals.
  split; [|split; [|split]].
  - destruct selectedIdSignalName as [a|], selectedSeriesSignalName as [b|];
      simpl; try destruct (truthy a); try destruct (truthy b); reflexivity.
  - destruct selectedIdSignalName as [a|], selectedSeriesSignalName as [b|];
      simpl; try destruct (truthy a); try destruct (truthy b);
      repeat constructor; simpl; apply nullish_cases.
  - intros ->.
    destruct selectedIdSignalName as [a|], selectedSeriesSignalName as [b|];
      simpl; try destruct (truthy a); try destruct (truthy b);
      repeat constructor.
  - exists (nullish (optionalField selectedData prismMarkId) VNull),
           (nullish (optionalField selectedData prismSeriesId) VNull).
    split; [|split].
    + destruct selectedIdSignalName as [a|], selectedSeriesSignalName as [b|];
        simpl; try destruct (truthy a); try destruct (truthy b); reflexivity.
    + intros ->. split; reflexivity.
    + intros d ->. simpl. repeat split; apply nullish_cases.
Qed.

(** ** Named segments *)

(** X18.  The segment of a named element of a counted kind or of kind
    Trendline is made of letters and digits and starts with a lower-case
    letter or a digit, as soon as the name holds a letter or a digit; a name
    without any is taken as it is. *)
Theorem named_segment_shape (ty : ElementType) (nm : string)
    (ch : option Node) (elementCounts : ElementCounts) :
  counted ty = true \/ ty = Trendline ->
  let segment := fst (getElementName (NElem ty (Some nm) ch) elementCounts) in
  (allChars notAlnum nm = false ->
   allChars isAlnum segment = true /\
   exists c rest, segment = String c rest /\ isLowerOrDigit c = true) /\
  (truthy nm = true -> allChars notAlnum nm = true -> segment = nm).
Proof.
  intros Hty. cbv zeta.
  assert (Hseg : truthy nm = true ->
            fst (getElementName (NElem ty (Some nm) ch) elementCounts)
            = toCamelCase nm).
  { intros Hnm. destruct Hty as [Hty| ->].
    - destruct ty; try discriminate; cbn [getElementName fst];
        now apply getComponentName_named.
    - cbn [getElementName fst]. now apply getComponentName_named. }
  split.
  - intros H. assert (Hnm : truthy nm = true) by (destruct nm; [discriminate|reflexivity]).
    rewrite (Hseg Hnm). now apply toCamelCase_shape.
  - intros Hnm H. rewrite (Hseg Hnm).
    apply String_match_none in H. unfold toCamelCase. now rewrite H.
Qed.

Lemma named_segment_shape_witness :
  let segment := fst (getElementName (NElem Bar (Some "Net Revenue (EUR)") None)
                        initElementCounts) in
  (allChars notAlnum "Net Revenue (EUR)" = false ->
   allChars isAlnum segment = true /\
   exists c rest, segment = String c rest /\ isLowerOrDigit c = true) /\
  (truthy "Net Revenue (EUR)" = true ->
   allChars notAlnum "Net Revenue (EUR)" = true ->
   segment = "Net Revenue (EUR)").
Proof.
  apply (named_segment_shape Bar "Net Revenue (EUR)" None initElementCounts).
  left. reflexivity.
Defined.
